(** * script.js: image probing and the per-card carousel

  A shallow embedding of [src/script.js].  JavaScript numbers that the
  program only ever uses as integers are [Z]; the remainder operator [%]
  is [Z.rem] (truncating, sign of the dividend); closures become explicit
  state records; the browser's task queue becomes an explicit step
  function driven by an arbitrary scheduler. *)

From stdpp Require Import base list strings pretty.
From Stdlib Require Import ZArith Lia Sorted.

Open Scope Z_scope.

(** ** JavaScript helpers *)

Module Js.

(** [a % b] on integers. *)
Definition rem (a b : Z) : Z := Z.rem a b.

(** [o || d] for an optional number: [undefined] and [0] are falsy. *)
Definition or_default (o : option Z) (d : Z) : Z :=
  match o with
  | None => d
  | Some 0 => d
  | Some v => v
  end.

(** [o || d] for an optional array: every array, also the empty one, is
    truthy. *)
Definition or_default_array {A} (o : option (list A)) (d : list A) : list A :=
  match o with
  | None => d
  | Some l => l
  end.

(** [a[i]] for a number [i]: [undefined] (here [None]) out of range. *)
Definition index {A} (a : list A) (i : Z) : option A :=
  if i <? 0 then None else a !! Z.to_nat i.

(** The integers a number holds exactly.  A sum of two integers that is
    itself within these bounds is computed exactly by [+], and [%] is
    always exact; past them [+] rounds, and [Z] no longer tells what the
    program computes. *)
Definition safe (z : Z) : Prop := - 2 ^ 53 <= z <= 2 ^ 53.

End Js.

(** ** Image probing: [probeImagesInFolder] *)

Module Probe.

(** The template literal [`Images/Products/${folder}/${idx}.${sfx}`],
    kept structured; [render] gives the string. *)
Record Path := { p_folder : string; p_idx : Z; p_sfx : string }.

Definition render (p : Path) : string :=
  "Images/Products/" +:+ p_folder p +:+ "/" +:+ pretty (p_idx p)
    +:+ "." +:+ p_sfx p.

(** An element of [found]: [{ file: path, alt: '' }]. *)
Record Found := { file : Path; alt : string }.

Record Options := {
  maxIndex : option Z;
  missLimit : option Z;
  suffixes : option (list string)
}.

Definition no_options : Options :=
  {| maxIndex := None; missLimit := None; suffixes := None |}.

Definition default_suffixes : list string := ["jpg"; "jpeg"; "png"; "webp"].

Definition MAX_INDEX (o : Options) : Z := Js.or_default (maxIndex o) 12.
Definition CONSECUTIVE_MISS_LIMIT (o : Options) : Z :=
  Js.or_default (missLimit o) 4.
Definition SUFFIXES (o : Options) : list string :=
  Js.or_default_array (suffixes o) default_suffixes.

(** The variables of one call of [tryNext], shared by the callbacks of the
    images created in that call. *)
Record Frame := { loadedThisIndex : bool; remaining : Z }.

(** An [Image] whose [src] is set and whose callbacks have not run yet;
    [l_frame] is the [tryNext] call that created it. *)
Record Load := { l_frame : nat; l_path : Path }.

Inductive LogEntry :=
| Attempt (p : Path)
| Settle (p : Path) (ok : bool).

Definition entry_idx (e : LogEntry) : Z :=
  match e with
  | Attempt p => p_idx p
  | Settle p _ => p_idx p
  end.

(** The promise executor's variables, the pending tasks and the promise.
    [log] is a ghost record of what was requested and what settled, newest
    entry first. *)
Record State := {
  found : list Found;
  idx : Z;
  consecutiveMisses : Z;
  frames : list Frame;
  inflight : list Load;
  timers : nat;
  resolved : option (list Found);
  log : list LogEntry
}.

Definition set_found v (s : State) : State :=
  {| found := v; idx := idx s; consecutiveMisses := consecutiveMisses s;
     frames := frames s; inflight := inflight s; timers := timers s;
     resolved := resolved s; log := log s |}.
Definition set_idx v (s : State) : State :=
  {| found := found s; idx := v; consecutiveMisses := consecutiveMisses s;
     frames := frames s; inflight := inflight s; timers := timers s;
     resolved := resolved s; log := log s |}.
Definition set_consecutiveMisses v (s : State) : State :=
  {| found := found s; idx := idx s; consecutiveMisses := v;
     frames := frames s; inflight := inflight s; timers := timers s;
     resolved := resolved s; log := log s |}.
Definition set_frames v (s : State) : State :=
  {| found := found s; idx := idx s; consecutiveMisses := consecutiveMisses s;
     frames := v; inflight := inflight s; timers := timers s;
     resolved := resolved s; log := log s |}.
Definition set_inflight v (s : State) : State :=
  {| found := found s; idx := idx s; consecutiveMisses := consecutiveMisses s;
     frames := frames s; inflight := v; timers := timers s;
     resolved := resolved s; log := log s |}.
Definition set_timers v (s : State) : State :=
  {| found := found s; idx := idx s; consecutiveMisses := consecutiveMisses s;
     frames := frames s; inflight := inflight s; timers := v;
     resolved := resolved s; log := log s |}.
Definition set_resolved v (s : State) : State :=
  {| found := found s; idx := idx s; consecutiveMisses := consecutiveMisses s;
     frames := frames s; inflight := inflight s; timers := timers s;
     resolved := v; log := log s |}.
Definition set_log v (s : State) : State :=
  {| found := found s; idx := idx s; consecutiveMisses := consecutiveMisses s;
     frames := frames s; inflight := inflight s; timers := timers s;
     resolved := resolved s; log := v |}.

(** [let idx = 1; let consecutiveMisses = 0; const found = [];] *)
Definition init : State :=
  {| found := []; idx := 1; consecutiveMisses := 0; frames := [];
     inflight := []; timers := 0; resolved := None; log := [] |}.

Section Run.

Variable folder : string.
Variable opts : Options.

(** Whether loading a path succeeds ([onload]) or fails ([onerror]). *)
Variable loads : Path -> bool.

(** The order in which the browser runs the pending tasks: at step [t]
    it runs task number [sched t] (modulo the number of pending ones). *)
Variable sched : nat -> nat.

Definition mkPath (i : Z) (sfx : string) : Path :=
  {| p_folder := folder; p_idx := i; p_sfx := sfx |}.

(** [resolve(found)]; a promise keeps its first value.  The caller reads
    the array in the microtask that follows, before any other task. *)
Definition resolve (s : State) : State :=
  match resolved s with
  | Some _ => s
  | None => set_resolved (Some (found s)) s
  end.

(** One iteration of [suffixes.forEach]: [img.src = path]. *)
Definition issue (fr : nat) (s : State) (sfx : string) : State :=
  let path := mkPath (idx s) sfx in
  set_log (Attempt path :: log s)
    (set_inflight (inflight s ++ [{| l_frame := fr; l_path := path |}]) s).

(** [tryNext]: stop and resolve past [MAX_INDEX] or at the miss limit;
    otherwise a new [loadedThisIndex] and [remaining], one image per suffix,
    and, for an empty suffix list only, [resolve(found)] after the loop. *)
Definition tryNext (s : State) : State :=
  if (MAX_INDEX opts <? idx s)
     || (CONSECUTIVE_MISS_LIMIT opts <=? consecutiveMisses s)
  then resolve s
  else
    let fr := length (frames s) in
    let s1 :=
      set_frames
        (frames s ++ [{| loadedThisIndex := false;
                         remaining := Z.of_nat (length (SUFFIXES opts)) |}])
        s in
    let s2 := foldl (issue fr) s1 (SUFFIXES opts) in
    if (length (SUFFIXES opts) =? 0)%nat then resolve s2 else s2.

(** [idx++; setTimeout(tryNext, 8);] *)
Definition advance (s : State) : State :=
  set_timers (S (timers s)) (set_idx (idx s + 1) s).

(** [img.onload]: the first success of the call is pushed and resets the
    miss counter; the last callback of the call moves on.  A callback whose
    call is unknown does not exist; the first case is never taken. *)
Definition onload (fr : nat) (path : Path) (s : State) : State :=
  match frames s !! fr with
  | None => s
  | Some f =>
    let '(f1, s1) :=
      if loadedThisIndex f then (f, s)
      else
        ({| loadedThisIndex := true; remaining := remaining f |},
         set_consecutiveMisses 0
           (set_found (found s ++ [{| file := path; alt := "" |}]) s)) in
    let f2 := {| loadedThisIndex := loadedThisIndex f1;
                 remaining := remaining f1 - 1 |} in
    let s2 := set_frames (<[fr := f2]> (frames s1)) s1 in
    if remaining f2 =? 0 then advance s2 else s2
  end.

(** [img.onerror]: the last callback of a call in which nothing loaded
    counts a miss. *)
Definition onerror (fr : nat) (path : Path) (s : State) : State :=
  match frames s !! fr with
  | None => s
  | Some f =>
    let f2 := {| loadedThisIndex := loadedThisIndex f;
                 remaining := remaining f - 1 |} in
    let s1 := set_frames (<[fr := f2]> (frames s)) s in
    if remaining f2 =? 0 then
      let s2 :=
        if loadedThisIndex f2 then s1
        else set_consecutiveMisses (consecutiveMisses s1 + 1) s1 in
      advance s2
    else s1
  end.

(** The load [l] settles: its [onload] or [onerror] runs. *)
Definition settle (l : Load) (s : State) : State :=
  let ok := loads (l_path l) in
  let s1 := set_log (Settle (l_path l) ok :: log s) s in
  if ok then onload (l_frame l) (l_path l) s1
  else onerror (l_frame l) (l_path l) s1.

(** One task of the event loop: a pending load settles or a pending
    timeout fires.  [None] when nothing is pending. *)
Definition step (choice : nat) (s : State) : option State :=
  let n := (length (inflight s) + timers s)%nat in
  match n with
  | O => None
  | S _ =>
    let j := (choice mod n)%nat in
    match inflight s !! j with
    | Some l => Some (settle l (set_inflight (delete j (inflight s)) s))
    | None => Some (tryNext (set_timers (pred (timers s)) s))
    end
  end.

Fixpoint run (fuel : nat) (t : nat) (s : State) : State :=
  match fuel with
  | O => s
  | S fuel' =>
    match step (sched t) s with
    | None => s
    | Some s' => run fuel' (S t) s'
    end
  end.

(** Every index costs one task per suffix and one timeout. *)
Definition budget : nat :=
  (Z.to_nat (MAX_INDEX opts) * S (length (SUFFIXES opts)))%nat.

(** The state when the event loop has run the probe's tasks; the
    executor calls [tryNext()] synchronously. *)
Definition final : State := run budget 0 (tryNext init).

(** What the returned promise resolves with; [None]: still pending. *)
Definition probeImagesInFolder : option (list Found) := resolved final.

(** The ghost log in chronological order. *)
Definition trace (s : State) : list LogEntry := rev (log s).

(** The paths requested, in the order of the requests. *)
Definition attempts (s : State) : list Path :=
  omap (fun e => match e with Attempt p => Some p | Settle _ _ => None end)
       (trace s).

(** *** The rounds of a probe

    Vocabulary for the statements below: what one pass over an index does,
    and how the ghost log is read. *)

(** Index [i] is a hit: some suffix loads. *)
Definition hit (i : Z) : bool :=
  existsb (fun sfx => loads (mkPath i sfx)) (SUFFIXES opts).

(** The guard at the head of [tryNext]. *)
Definition stops (s : State) : bool :=
  (MAX_INDEX opts <? idx s)
  || (CONSECUTIVE_MISS_LIMIT opts <=? consecutiveMisses s).

(** The paths requested for index [i], in the order of [forEach]. *)
Definition paths (i : Z) : list Path := map (mkPath i) (SUFFIXES opts).

(** [tryNext] may run: no task of the probe is pending and the promise is
    not settled. *)
Definition entry (s : State) : Prop :=
  inflight s = [] /\ timers s = O /\ resolved s = None.

(** Nothing is pending and the promise holds the array [found]. *)
Definition settled (s : State) : Prop :=
  inflight s = [] /\ timers s = O /\ resolved s = Some (found s).

(** From one call of [tryNext] that passes the guard, in state [s], to the
    next call, in state [s']: every load of index [idx s] was requested and
    then settled, in some order, and the first success, if any, was kept. *)
Record round (s s' : State) : Prop := {
  round_idx : idx s' = idx s + 1;
  round_found :
    if hit (idx s)
    then exists sfx,
           sfx ∈ SUFFIXES opts /\ loads (mkPath (idx s) sfx) = true /\
           found s' = found s ++ [{| file := mkPath (idx s) sfx; alt := "" |}] /\
           consecutiveMisses s' = 0
    else found s' = found s /\
         consecutiveMisses s' = consecutiveMisses s + 1;
  round_log :
    exists ss,
      log s' = ss ++ rev (map Attempt (paths (idx s))) ++ log s /\
      Forall (fun e => exists p ok, e = Settle p ok /\ p_idx p = idx s) ss /\
      length ss = length (SUFFIXES opts);
  round_entry : entry s'
}.

Inductive rounds : State -> State -> Prop :=
| rounds_stop s : stops s = true -> rounds s (resolve s)
| rounds_next s s' sf :
    stops s = false -> round s s' -> rounds s' sf -> rounds s sf.

(** The indices a probe visits from index [i] with [m] consecutive misses
    so far, each with whether it is a hit; [n] bounds their number. *)
Fixpoint sweep (n : nat) (i m : Z) : list (Z * bool) :=
  match n with
  | O => []
  | S n' =>
    if (MAX_INDEX opts <? i) || (CONSECUTIVE_MISS_LIMIT opts <=? m) then []
    else (i, hit i) :: sweep n' (i + 1) (if hit i then 0 else m + 1)
  end.

(** The miss counter after the indices of a sweep. *)
Definition misses_after (m : Z) (r : list (Z * bool)) : Z :=
  foldl (fun (m : Z) (ih : Z * bool) => if snd ih then 0 else m + 1) m r.

(** [+1] for a request of index [n], [-1] for a load of index [n] that
    settles. *)
Definition weight (n : Z) (e : LogEntry) : Z :=
  match e with
  | Attempt p => if p_idx p =? n then 1 else 0
  | Settle p _ => if p_idx p =? n then -1 else 0
  end.

(** The number of loads of index [n] requested and not yet settled in a
    log (in either order of the log). *)
Definition unsettled (n : Z) (l : list LogEntry) : Z :=
  foldr (fun e acc => weight n e + acc) 0 l.

(** On a log with the newest entry first: when a load is requested, no
    load of another index is unsettled, and nothing of a later index was
    logged before. *)
Fixpoint sequenced (l : list LogEntry) : Prop :=
  match l with
  | [] => True
  | Attempt p :: older =>
    (forall n, n <> p_idx p -> unsettled n older = 0) /\
    Forall (fun e => entry_idx e <= p_idx p) older /\
    sequenced older
  | Settle p _ :: older =>
    0 < unsettled (p_idx p) older /\
    Forall (fun e => entry_idx e <= p_idx p) older /\
    sequenced older
  end.

(** What a settling load [l] of a call with variables [f] does to [found]
    and to the miss counter; [last]: it is the last load of its call. *)
Definition kept (f : Frame) (l : Load) (s s' : State) (last : bool) : Prop :=
  if loadedThisIndex f
  then found s' = found s /\ consecutiveMisses s' = consecutiveMisses s
  else if loads (l_path l)
       then found s' = found s ++ [{| file := l_path l; alt := "" |}] /\
            consecutiveMisses s' = 0
       else found s' = found s /\
            consecutiveMisses s' =
            if last then consecutiveMisses s + 1 else consecutiveMisses s.

(** The same once all the pending loads [ls] of the call have settled. *)
Definition outcome (f : Frame) (ls : list Load) (s s' : State) : Prop :=
  if loadedThisIndex f
  then found s' = found s /\ consecutiveMisses s' = consecutiveMisses s
  else if existsb (fun l => loads (l_path l)) ls
       then exists l, l ∈ ls /\ loads (l_path l) = true /\
              found s' = found s ++ [{| file := l_path l; alt := "" |}] /\
              consecutiveMisses s' = 0
       else found s' = found s /\
            consecutiveMisses s' = consecutiveMisses s + 1.

(** The indices of a sweep that are hits. *)
Definition hits (r : list (Z * bool)) : list Z :=
  omap (fun ih : Z * bool => if snd ih then Some (fst ih) else None) r.

Definition tagged (b : bool) (l : list Z) : list (Z * bool) :=
  map (fun j => (j, b)) l.

Definition requests (l : list LogEntry) : list Path :=
  omap (fun e => match e with Attempt p => Some p | Settle _ _ => None end) l.

(** An element of the result is a path of this folder that loads, with an
    empty [alt]. *)
Definition genuine (x : Found) : Prop :=
  alt x = "" /\ loads (file x) = true /\ p_folder (file x) = folder /\
  p_sfx (file x) ∈ SUFFIXES opts.

Definition attempt_at (i : Z) (e : LogEntry) : Prop :=
  exists p, e = Attempt p /\ p_idx p = i.
Definition settle_at (i : Z) (e : LogEntry) : Prop :=
  exists p ok, e = Settle p ok /\ p_idx p = i.

(** Between two rounds: the log is sequenced, every request has settled
    and every entry is of an earlier index. *)
Definition orderly (s : State) : Prop :=
  sequenced (log s) /\ (forall n, unsettled n (log s) = 0) /\
  Forall (fun e => entry_idx e < idx s) (log s).

End Run.

End Probe.

(** ** The product list *)

Module Catalog.

Record Product := { id : Z; name : string; folder : string }.

Definition EMBEDDED_PRODUCTS : list Product := [
  {| id := 1; name := "Baby Rockers"; folder := "BabyRockers" |};
  {| id := 2; name := "Bero"; folder := "Bero" |};
  {| id := 3; name := "Ceiling Fan"; folder := "ceilingfan" |};
  {| id := 4; name := "Chair"; folder := "Chair" |};
  {| id := 5; name := "Cooker"; folder := "Cooker" |};
  {| id := 6; name := "Cot"; folder := "Cot" |};
  {| id := 7; name := "Dressing Table"; folder := "DressingTable" |};
  {| id := 8; name := "Electric Rice Cooker"; folder := "ElectricRiceCooker" |};
  {| id := 9; name := "Gas Stove"; folder := "GasStove" |};
  {| id := 10; name := "House Hold Plastic Products";
     folder := "HouseHoldPlasticProducts" |};
  {| id := 11; name := "Induction Stove"; folder := "InductionStove" |};
  {| id := 12; name := "Matress"; folder := "Matress" |};
  {| id := 13; name := "Mixer-Grinder"; folder := "MixerGrinder" |};
  {| id := 14; name := "Office Table"; folder := "OfficeTable" |};
  {| id := 15; name := "Pedestal Fan"; folder := "PedestalFan" |};
  {| id := 16; name := "Plastic Containers"; folder := "PlasticContainers" |};
  {| id := 17; name := "Pooja Rack"; folder := "PoojaRack" |};
  {| id := 18; name := "System Table"; folder := "SystemTable" |};
  {| id := 19; name := "Table Fan"; folder := "TableFan" |};
  {| id := 20; name := "Table Top Grinder"; folder := "TableTopGrinder" |};
  {| id := 21; name := "Wire Cot"; folder := "WireCot" |}
].

(** A parsed response body, as far as [loadProducts] tells values apart:
    [null], an array of products, or another object (truthy, without
    [length]). *)
Inductive Json :=
| JNull
| JArray (l : list Product)
| JObject.

(** What [fetch(url)] and [r.json()] do: the request fails, or a response
    arrives with a status and a body that parses ([Some]) or does not. *)
Inductive FetchOutcome :=
| NetworkError
| Response (status : Z) (body : option Json).

(** [r.ok] *)
Definition ok (status : Z) : bool := (200 <=? status) && (status <=? 299).

(** Every failure is caught and becomes [null]. *)
Definition safeFetchJson (o : FetchOutcome) : Json :=
  match o with
  | NetworkError => JNull
  | Response status body =>
    if ok status then
      match body with
      | Some j => j
      | None => JNull
      end
    else JNull
  end.

End Catalog.

(** ** The card of one product: [createProductCard] *)

Module Carousel.

Import Catalog.

Definition AUTO_INTERVAL : Z := 3500.

Definition placeholder : string :=
  "https://via.placeholder.com/600x400?text=Loading".
Definition no_image : string :=
  "https://via.placeholder.com/600x400?text=No+Image".

(** The variables a card's closures share, and what they show in the
    document.  [intervals_set] is a ghost count of the calls of
    [setInterval]. *)
Record Card := {
  c_name : string;
  images : list Probe.Found;
  idx : Z;
  interval : option nat;
  isPaused : bool;
  thumb_src : string;
  thumb_alt : string;
  prev_display : string;
  next_display : string;
  hint : string;
  intervals_set : nat
}.

Definition set_images v (c : Card) : Card :=
  {| c_name := c_name c; images := v; idx := idx c; interval := interval c;
     isPaused := isPaused c; thumb_src := thumb_src c;
     thumb_alt := thumb_alt c; prev_display := prev_display c;
     next_display := next_display c; hint := hint c;
     intervals_set := intervals_set c |}.
Definition set_idx v (c : Card) : Card :=
  {| c_name := c_name c; images := images c; idx := v; interval := interval c;
     isPaused := isPaused c; thumb_src := thumb_src c;
     thumb_alt := thumb_alt c; prev_display := prev_display c;
     next_display := next_display c; hint := hint c;
     intervals_set := intervals_set c |}.
Definition set_interval v n (c : Card) : Card :=
  {| c_name := c_name c; images := images c; idx := idx c; interval := v;
     isPaused := isPaused c; thumb_src := thumb_src c;
     thumb_alt := thumb_alt c; prev_display := prev_display c;
     next_display := next_display c; hint := hint c;
     intervals_set := n |}.
Definition set_isPaused v (c : Card) : Card :=
  {| c_name := c_name c; images := images c; idx := idx c;
     interval := interval c; isPaused := v; thumb_src := thumb_src c;
     thumb_alt := thumb_alt c; prev_display := prev_display c;
     next_display := next_display c; hint := hint c;
     intervals_set := intervals_set c |}.
Definition set_thumb src alt (c : Card) : Card :=
  {| c_name := c_name c; images := images c; idx := idx c;
     interval := interval c; isPaused := isPaused c; thumb_src := src;
     thumb_alt := alt; prev_display := prev_display c;
     next_display := next_display c; hint := hint c;
     intervals_set := intervals_set c |}.
Definition set_buttons v (c : Card) : Card :=
  {| c_name := c_name c; images := images c; idx := idx c;
     interval := interval c; isPaused := isPaused c; thumb_src := thumb_src c;
     thumb_alt := thumb_alt c; prev_display := v; next_display := v;
     hint := hint c; intervals_set := intervals_set c |}.
Definition set_hint v (c : Card) : Card :=
  {| c_name := c_name c; images := images c; idx := idx c;
     interval := interval c; isPaused := isPaused c; thumb_src := thumb_src c;
     thumb_alt := thumb_alt c; prev_display := prev_display c;
     next_display := next_display c; hint := v;
     intervals_set := intervals_set c |}.

(** How a function or a handler ends: normally, or with an exception
    thrown; either way the variables keep what was assigned. *)
Inductive Completion :=
| Normal (c : Card)
| Thrown (c : Card).

Definition state_of (m : Completion) : Card :=
  match m with
  | Normal c => c
  | Thrown c => c
  end.

Definition bind (m : Completion) (k : Card -> Completion) : Completion :=
  match m with
  | Normal c => k c
  | Thrown c => Thrown c
  end.

(** The card as [createProductCard] returns it, before the probe is done. *)
Definition createProductCard (product : Product) : Card :=
  {| c_name := name product; images := []; idx := 0; interval := None;
     isPaused := false; thumb_src := placeholder;
     thumb_alt := name product; prev_display := "none";
     next_display := "none"; hint := "Images loading…";
     intervals_set := O |}.

Definition stopAuto (c : Card) : Card :=
  match interval c with
  | Some _ => set_interval None (intervals_set c) c
  | None => c
  end.

Definition startAuto (c : Card) : Card :=
  let c1 := stopAuto c in
  if Z.of_nat (length (images c1)) <=? 1 then c1
  else set_interval (Some (S (intervals_set c1))) (S (intervals_set c1)) c1.

(** [images[idx]] of an index out of range is [undefined], and reading
    [.file] of it throws. *)
Definition showImage (i : Z) (c : Card) : Completion :=
  let n := Z.of_nat (length (images c)) in
  if n =? 0 then Normal c
  else
    let c1 := set_idx (Js.rem (i + n) n) c in
    match Js.index (images c1) (idx c1) with
    | None => Thrown c1
    | Some im =>
      let c2 :=
        set_thumb (Probe.render (Probe.file im))
          (if String.eqb (Probe.alt im) "" then c_name c1 else Probe.alt im)
          c1 in
      Normal (if 1 <? n then set_buttons "" c2 else set_buttons "none" c2)
    end.

(** The callback of [setInterval]. *)
Definition tick (c : Card) : Completion :=
  if negb (isPaused c)
  then showImage (Js.rem (idx c + 1) (Z.of_nat (length (images c)))) c
  else Normal c.

Inductive Event :=
| PrevClick
| NextClick
| MouseEnter
| MouseLeave
| FocusIn
| FocusOut
| KeyDown (key : string)
| Click
| Tick.

Definition onKeyDown (key : string) (c : Card) : Completion :=
  bind (if String.eqb key "ArrowRight" then showImage (idx c + 1) c
        else Normal c)
    (fun c1 =>
  bind (if String.eqb key "ArrowLeft" then showImage (idx c1 - 1) c1
        else Normal c1)
    (fun c2 =>
  Normal (if String.eqb key " " then set_isPaused (negb (isPaused c2)) c2
          else c2))).

Definition onClick (c : Card) : Card :=
  let c1 := set_isPaused (negb (isPaused c)) c in
  if negb (isPaused c1) && negb (bool_decide (is_Some (interval c1)))
  then startAuto c1 else c1.

(** The listeners of the card and of its buttons; a click on a button
    stops at the button.  The interval's callback runs only while an
    interval is set. *)
Definition handle (e : Event) (c : Card) : Completion :=
  match e with
  | PrevClick => showImage (idx c - 1) c
  | NextClick => showImage (idx c + 1) c
  | MouseEnter => Normal (set_isPaused true c)
  | MouseLeave => Normal (set_isPaused false c)
  | FocusIn => Normal (set_isPaused true c)
  | FocusOut => Normal (set_isPaused false c)
  | KeyDown key => onKeyDown key c
  | Click => Normal (onClick c)
  | Tick =>
    match interval c with
    | Some _ => tick c
    | None => Normal c
    end
  end.

(** An exception that leaves a listener is reported by the browser; the
    card goes on from the state the listener left. *)
Definition dispatch (e : Event) (c : Card) : Card := state_of (handle e c).

Definition run (evs : list Event) (c : Card) : Card :=
  foldl (fun c e => dispatch e c) c evs.

(** The continuation of [await probeImagesInFolder(...)]. *)
Definition onProbeComplete (found : list Probe.Found) (c : Card) : Completion :=
  if (0 <? Z.of_nat (length found)) then
    let c1 :=
      set_images
        (map (fun f => {| Probe.file := Probe.file f; Probe.alt := c_name c |})
             found) c in
    let c2 := set_hint "" c1 in
    bind (showImage 0 c2) (fun c3 => Normal (startAuto c3))
  else
    Normal (set_hint "No images available"
              (set_thumb no_image (thumb_alt c) c)).

(** The options a card probes with: [{ maxIndex: 20, missLimit: 5 }]. *)
Definition card_options : Probe.Options :=
  {| Probe.maxIndex := Some 20; Probe.missLimit := Some 5;
     Probe.suffixes := None |}.

(** A card's life: events while the probe runs, the end of the probe with
    [found], events after it. *)
Definition life (product : Product) (pre : list Event)
    (found : list Probe.Found) (post : list Event) : Card :=
  run post
    (state_of (onProbeComplete found (run pre (createProductCard product)))).

(** The same with the probe's own result for the product's folder. *)
Definition card_life (product : Product) (loads : Probe.Path -> bool)
    (sched : nat -> nat) (pre post : list Event) : option Card :=
  match Probe.probeImagesInFolder (folder product) card_options loads sched with
  | Some found => Some (life product pre found post)
  | None => None
  end.

(** [0 <= idx < images.length] whenever [images] is not empty. *)
Definition in_range (c : Card) : Prop :=
  images c <> [] -> 0 <= idx c < Z.of_nat (length (images c)).

(** A card with no image: no interval was ever set, the buttons are
    hidden. *)
Definition bare (c : Card) : Prop :=
  images c = [] /\ idx c = 0 /\ interval c = None /\
  intervals_set c = O /\ prev_display c = "none" /\ next_display c = "none".

(** A card showing one of its [n] images. *)
Definition active (n : nat) (c : Card) : Prop :=
  length (images c) = n /\ 0 <= idx c < Z.of_nat n /\
  (n = 1%nat ->
   interval c = None /\ intervals_set c = O /\
   prev_display c = "none" /\ next_display c = "none") /\
  ((2 <= n)%nat ->
   interval c = Some 1%nat /\ intervals_set c = 1%nat /\
   prev_display c = "" /\ next_display c = "").

End Carousel.

(** ** The product grid: [loadProducts] *)

Module Grid.

Import Catalog.

(** The container: markup without cards, or the cards appended to it. *)
Inductive Content :=
| Html (markup : string)
| Cards (cards : list Carousel.Card).

(** [productGrid] is [None] when the page has no such element; then
    nothing is done. *)
Definition loadProducts (productGrid : option Content) (o : FetchOutcome)
  : option Content :=
  match productGrid with
  | None => None
  | Some _ =>
    let products :=
      match safeFetchJson o with
      | JNull => JArray EMBEDDED_PRODUCTS
      | j => j
      end in
    match products with
    | JArray (p :: ps) => Some (Cards (map Carousel.createProductCard (p :: ps)))
    | _ => Some (Html "<p>Unable to load products.</p>")
    end
  end.

(** The catalog request failed: no response, a status outside 200..299,
    or a body that does not parse. *)
Definition failed (o : FetchOutcome) : Prop :=
  match o with
  | NetworkError => True
  | Response status body => ok status = false \/ body = None
  end.

End Grid.

(** ** Sample inputs *)

Module Sample.

Import Catalog.

Definition cot : Product := {| id := 6; name := "Cot"; folder := "Cot" |}.

(** A folder that holds [1.jpg] and [2.png] and nothing else. *)
Definition two_files (p : Probe.Path) : bool :=
  ((Probe.p_idx p =? 1) && String.eqb (Probe.p_sfx p) "jpg")
  || ((Probe.p_idx p =? 2) && String.eqb (Probe.p_sfx p) "png").

(** A folder that holds nothing. *)
Definition no_files (p : Probe.Path) : bool := false.

(** A browser that runs, of the pending tasks, the one numbered by the
    step count. *)
Definition by_turns (t : nat) : nat := t.


Definition image (i : Z) : Probe.Found :=
  {| Probe.file := {| Probe.p_folder := "Cot"; Probe.p_idx := i;
                      Probe.p_sfx := "jpg" |};
     Probe.alt := "" |}.

(** A card of three images, as the end of its probe leaves it. *)
Definition three_images : Carousel.Card :=
  Carousel.life cot [] [image 1; image 2; image 3] [].

End Sample.

(** ** Escaping for markup: [escapeHtml] *)

Module Html.

Import Stdlib.Strings.Ascii.

Definition amp : Ascii.ascii := "&"%char.
Definition quot : Ascii.ascii := Ascii.Ascii false true false false false true false false.
Definition apos : Ascii.ascii := "'"%char.
Definition lt : Ascii.ascii := "<"%char.
Definition gt : Ascii.ascii := ">"%char.

(** [s.replace(/c/g, r)] for a pattern of one character. *)
Fixpoint replaceAll (c : Ascii.ascii) (r : string) (s : string) : string :=
  match s with
  | EmptyString => EmptyString
  | String a s' =>
    if Ascii.eqb a c then r +:+ replaceAll c r s'
    else String a (replaceAll c r s')
  end.

(** The five replacements, in the order of the source. *)
Definition escapeString (s : string) : string :=
  replaceAll gt "&gt;"
    (replaceAll lt "&lt;"
       (replaceAll apos "&#39;"
          (replaceAll quot "&quot;"
             (replaceAll amp "&amp;" s)))).

(** [escapeHtml(s = '')]: a missing argument is the empty string. *)
Definition escapeHtml (s : option string) : string :=
  escapeString (default EmptyString s).

(** The characters the function replaces. *)
Definition special (a : Ascii.ascii) : bool :=
  Ascii.eqb a amp || Ascii.eqb a quot || Ascii.eqb a apos
  || Ascii.eqb a lt || Ascii.eqb a gt.

(** What one character becomes when it is escaped on its own. *)
Definition entity (a : Ascii.ascii) : string :=
  if Ascii.eqb a amp then "&amp;"
  else if Ascii.eqb a quot then "&quot;"
  else if Ascii.eqb a apos then "&#39;"
  else if Ascii.eqb a lt then "&lt;"
  else if Ascii.eqb a gt then "&gt;"
  else String a EmptyString.

(** One pass over the string, character by character. *)
Fixpoint onePass (s : string) : string :=
  match s with
  | EmptyString => EmptyString
  | String a s' => entity a +:+ onePass s'
  end.

Fixpoint occurs (a : Ascii.ascii) (s : string) : bool :=
  match s with
  | EmptyString => false
  | String b s' => Ascii.eqb b a || occurs a s'
  end.

Fixpoint plain (s : string) : bool :=
  match s with
  | EmptyString => true
  | String a s' => negb (special a) && plain s'
  end.

End Html.

(** ** The counters: [runCounters] and the scroll listener *)

Module Counters.

(** One [.counter] element: the variables of its closure, its text, and
    whether a [setTimeout(tick, 10)] is pending. *)
Record Counter := {
  target : Z;
  step : Z;
  current : Z;
  innerText : string;
  pending : bool
}.

(** [+counter.getAttribute('data-target') || 0], for an attribute that is
    an integer ([Some]) or is missing or not a number ([None]). *)
Definition parseTarget (attr : option Z) : Z := Js.or_default attr 0.

(** [Math.max(1, Math.floor(target / 200))] *)
Definition stepOf (t : Z) : Z := Z.max 1 (t / 200).

(** The targets on which the numbers of a counter are exact integers all
    along: the attribute converts without rounding, the quotient by 200
    is floored as in [Z] (its rounding error stays below 1/200), [current]
    stays below 2^53, and the text of a number is its digits. *)
Definition exact (t : Z) : Prop := - 2 ^ 52 <= t <= 2 ^ 52.

Definition tick (c : Counter) : Counter :=
  let cur := current c + step c in
  if target c <=? cur then
    {| target := target c; step := step c; current := cur;
       innerText := pretty (target c); pending := false |}
  else
    {| target := target c; step := step c; current := cur;
       innerText := pretty cur; pending := true |}.

(** The body of [counters.forEach]: the text is set to ['0'] and [tick()]
    is called once at once. *)
Definition start (attr : option Z) : Counter :=
  let t := parseTarget attr in
  tick {| target := t; step := stepOf t; current := 0;
          innerText := "0"; pending := false |}.

(** The pending timeouts of one counter fire, at most [n] of them. *)
Fixpoint timeouts (n : nat) (c : Counter) : Counter :=
  match n with
  | O => c
  | S n' => if pending c then timeouts n' (tick c) else c
  end.

Definition runCounters (attrs : list (option Z)) : list Counter :=
  map start attrs.

(** The page as the scroll listener sees it: the flag, and a ghost count
    of the calls of [runCounters]. *)
Record Page := { countersStarted : bool; runs : nat }.

Definition loaded : Page := {| countersStarted := false; runs := O |}.

(** A scroll event: [None] when the page has no [stats] element, else
    whether [top < window.innerHeight - 100] holds. *)
Definition onScroll (near : option bool) (p : Page) : Page :=
  match near with
  | None => p
  | Some b =>
    if countersStarted p then p
    else if b then {| countersStarted := true; runs := S (runs p) |}
    else p
  end.

Definition scrolls (evs : list (option bool)) (p : Page) : Page :=
  foldl (fun p e => onScroll e p) p evs.

End Counters.

(** ** The theme toggle *)

Module Theme.

Definition sun : string := "☀️".
Definition moon : string := "🌙".

(** The class [dark] of the body, the entry [theme] of the local storage,
    and the text of the toggle button ([None]: the page has no such
    button). *)
Record Page := {
  dark : bool;
  stored : option string;
  themeToggle : option string
}.

(** The script's top level: with a button, a stored ["dark"] is applied. *)
Definition load (p : Page) : Page :=
  match themeToggle p with
  | None => p
  | Some _ =>
    if bool_decide (stored p = Some "dark")
    then {| dark := true; stored := stored p; themeToggle := Some sun |}
    else p
  end.

(** The button's click listener; without a button there is none. *)
Definition click (p : Page) : Page :=
  match themeToggle p with
  | None => p
  | Some _ =>
    let d := negb (dark p) in
    let theme := if d then "dark" else "light" in
    {| dark := d; stored := Some theme;
       themeToggle := Some (if String.eqb theme "dark" then sun else moon) |}
  end.

Definition clicks (n : nat) (p : Page) : Page := Nat.iter n click p.

(** A visit: the markup's body class and button text, the storage as the
    last visit left it, the script, then [n] clicks. *)
Definition visit (markupDark : bool) (markupText : string)
    (storage : option string) (n : nat) : Page :=
  clicks n
    (load {| dark := markupDark; stored := storage;
             themeToggle := Some markupText |}).

End Theme.

(** ** More vocabulary for the probe and the card *)

Module Views.

Import Catalog.



(** The indices of a result. *)
Definition indices (r : list Probe.Found) : list Z :=
  map (fun x => Probe.p_idx (Probe.file x)) r.

(** The folder holds images exactly at the indices 1..k. *)
Definition numbered (folder : string) (opts : Probe.Options)
    (loads : Probe.Path -> bool) (k : Z) : Prop :=
  (forall i, 1 <= i <= k ->
     exists sfx, sfx ∈ Probe.SUFFIXES opts /\
                 loads (Probe.mkPath folder i sfx) = true) /\
  (forall i sfx, k < i -> loads (Probe.mkPath folder i sfx) = false).

(** The card shows the image at its index, with the product's name as
    alt text, and no hint. *)
Definition showing (c : Carousel.Card) : Prop :=
  exists im,
    Carousel.images c !! Z.to_nat (Carousel.idx c) = Some im /\
    Carousel.thumb_src c = Probe.render (Probe.file im) /\
    Carousel.thumb_alt c = Carousel.c_name c /\
    Carousel.hint c = "".

(** Every image of the card carries the product's name as alt text. *)
Definition named (c : Carousel.Card) : Prop :=
  Forall (fun im => Probe.alt im = Carousel.c_name c) (Carousel.images c).

(** A card of [n] images that shows what its variables say. *)
Definition sound (n : nat) (c : Carousel.Card) : Prop :=
  Carousel.active n c /\ showing c /\ named c.

(** The card with the image of index [k] shown instead. *)
Definition moved (k : Z) (c : Carousel.Card) : Carousel.Card :=
  match Carousel.images c !! Z.to_nat k with
  | Some im =>
    Carousel.set_thumb (Probe.render (Probe.file im)) (Carousel.c_name c)
      (Carousel.set_idx k c)
  | None => c
  end.

(** The images a card keeps of a result: the files, with the product's
    name as alt text. *)
Definition images_of (nm : string) (found : list Probe.Found)
  : list Probe.Found :=
  map (fun f => {| Probe.file := Probe.file f; Probe.alt := nm |}) found.

(** The card of a product whose probe found nothing: [paused] is all that
    events can change. *)
Definition without_images (p : Product) (paused : bool) : Carousel.Card :=
  Carousel.set_isPaused paused
    (Carousel.set_hint "No images available"
       (Carousel.set_thumb Carousel.no_image (name p)
          (Carousel.createProductCard p))).

(** A card that can occur: before the end of its probe, or after it. *)
Definition occurs (c : Carousel.Card) : Prop :=
  (exists p pre, c = Carousel.run pre (Carousel.createProductCard p)) \/
  (exists p pre found post, c = Carousel.life p pre found post).

End Views.

(** * Properties *)

(** ** The probe *)

Module ProbeFacts.
Import Probe.

Section Facts.

Variable folder : string.
Variable opts : Options.
Variable loads : Path -> bool.

Lemma foldl_issue fr l : forall s,
  foldl (issue folder fr) s l =
  set_log (rev (map Attempt (map (mkPath folder (idx s)) l)) ++ log s)
    (set_inflight
       (inflight s ++
        map (fun sfx => {| l_frame := fr; l_path := mkPath folder (idx s) sfx |}) l)
       s).
Proof.
  induction l as [|sfx l IH]; intros s.
  - destruct s; cbn. by rewrite app_nil_r.
  - cbn [foldl]. rewrite IH. destruct s; cbn.
    unfold set_log, set_inflight; cbn.
    f_equal; rewrite <- !app_assoc; reflexivity.
Qed.



Lemma settle_more l s f :
  frames s !! l_frame l = Some f -> remaining f <> 1 ->
  let s' := settle loads l s in
  idx s' = idx s /\ timers s' = timers s /\ inflight s' = inflight s /\
  resolved s' = resolved s /\
  log s' = Settle (l_path l) (loads (l_path l)) :: log s /\
  frames s' =
    <[l_frame l := {| loadedThisIndex := loadedThisIndex f || loads (l_path l);
                      remaining := remaining f - 1 |}]> (frames s) /\
  kept loads f l s s' false.
Proof.
  intros Hf Hr. unfold settle, onload, onerror, kept.
  destruct (loads (l_path l)) eqn:Hok; cbn [set_log frames]; rewrite Hf.
  - destruct (loadedThisIndex f) eqn:Hl; cbn;
      (destruct (Z.eqb_spec (remaining f - 1) 0); [lia|]);
      destruct s; cbn; rewrite ?Hl; auto 10.
  - cbn. destruct (Z.eqb_spec (remaining f - 1) 0); [lia|].
    destruct s; cbn. rewrite orb_false_r.
    destruct (loadedThisIndex f); auto 10.
Qed.

Lemma settle_last l s f :
  frames s !! l_frame l = Some f -> remaining f = 1 ->
  let s' := settle loads l s in
  idx s' = idx s + 1 /\ timers s' = S (timers s) /\ inflight s' = inflight s /\
  resolved s' = resolved s /\
  log s' = Settle (l_path l) (loads (l_path l)) :: log s /\
  kept loads f l s s' true.
Proof.
  intros Hf Hr. unfold settle, onload, onerror, kept.
  destruct (loads (l_path l)) eqn:Hok; cbn [set_log frames]; rewrite Hf.
  - destruct (loadedThisIndex f) eqn:Hl; cbn;
      (destruct (Z.eqb_spec (remaining f - 1) 0); [|lia]);
      destruct s; cbn; auto 10.
  - cbn. destruct (Z.eqb_spec (remaining f - 1) 0); [|lia].
    destruct (loadedThisIndex f); destruct s; cbn; auto 10.
Qed.



Lemma step_settle choice s m :
  length (inflight s) = S m -> timers s = O ->
  exists j l, inflight s !! j = Some l /\
    step folder opts loads choice s =
    Some (settle loads l (set_inflight (delete j (inflight s)) s)).
Proof.
  intros Hlen Ht. unfold step. rewrite Hlen, Ht, Nat.add_0_r.
  set (j := (choice mod S m)%nat).
  assert (Hj : (j < length (inflight s))%nat).
  { rewrite Hlen. apply Nat.mod_upper_bound. lia. }
  apply lookup_lt_is_Some in Hj as [l Hl].
  exists j, l. by rewrite Hl.
Qed.

Lemma settle_all sched m : forall t s extra fr f,
  length (inflight s) = S m -> timers s = O ->
  frames s !! fr = Some f -> remaining f = Z.of_nat (S m) ->
  Forall (fun l => l_frame l = fr) (inflight s) ->
  exists s' ss,
    run folder opts loads sched (S m + extra) t s =
    run folder opts loads sched extra (t + S m) s' /\
    inflight s' = [] /\ timers s' = 1%nat /\ resolved s' = resolved s /\
    idx s' = idx s + 1 /\
    log s' = ss ++ log s /\
    ss ≡ₚ map (fun l => Settle (l_path l) (loads (l_path l))) (inflight s) /\
    outcome loads f (inflight s) s s'.
Proof.
  induction m as [|m IH]; intros t s extra fr f Hlen Ht Hf Hrem Hfr.
  - destruct (step_settle (sched t) s 0 Hlen Ht) as (j & l & Hl & Hstep).
    destruct (inflight s) as [|l0 [|? ?]] eqn:Hin; try discriminate.
    destruct j as [|j]; [|by destruct j]. injection Hl as ->.
    apply Forall_cons in Hfr as [Hfl _]. subst fr.
    cbn [delete list_delete] in Hstep.
    set (s0 := set_inflight [] s) in *.
    destruct (settle_last l s0 f) as (Hi & Htm & Hin' & Hres & Hlog & Hk).
    { done. } { lia. }
    exists (settle loads l s0), [Settle (l_path l) (loads (l_path l))].
    split. { cbn [Nat.add run]. rewrite Hstep. f_equal. lia. }
    split; [by rewrite Hin'|].
    split; [by rewrite Htm; cbn; rewrite Ht|].
    split; [by rewrite Hres|].
    split; [by rewrite Hi|].
    split; [by rewrite Hlog|].
    split; [done|].
    unfold outcome, kept in *. cbn [existsb]. rewrite orb_false_r.
    destruct (loadedThisIndex f); [done|].
    destruct (loads (l_path l)) eqn:Hok.
    + exists l. split; [apply list_elem_of_here|]. done.
    + done.
  - destruct (step_settle (sched t) s (S m) Hlen Ht) as (j & l & Hl & Hstep).
    assert (Hlf : l_frame l = fr).
    { eapply Forall_lookup_1 in Hfr; eauto. }
    subst fr.
    set (s0 := set_inflight (delete j (inflight s)) s) in *.
    destruct (settle_more l s0 f) as (Hi & Htm & Hin' & Hres & Hlog & Hfrm & Hk).
    { done. } { lia. }
    set (s1 := settle loads l s0) in *.
    set (f' := {| loadedThisIndex := loadedThisIndex f || loads (l_path l);
                  remaining := remaining f - 1 |}) in *.
    assert (Hlen1 : length (inflight s1) = S m).
    { rewrite Hin'. subst s0. cbn.
      rewrite length_delete; [lia| eauto]. }
    destruct (IH (S t) s1 extra (l_frame l) f') as (s' & ss & Hrun & H1 & H2 & H3 & H4 & H5 & H6 & H7).
    { done. }
    { by rewrite Htm. }
    { rewrite Hfrm. apply list_lookup_insert_eq.
      apply lookup_lt_Some with (x := f). done. }
    { subst f'. cbn. lia. }
    { rewrite Hin'. subst s0. cbn.
      by apply Forall_delete. }
    exists s', (ss ++ [Settle (l_path l) (loads (l_path l))]).
    split.
    { replace (S (S m) + extra)%nat with (S (S m + extra)) by lia.
      cbn [run]. rewrite Hstep. fold s1. rewrite Hrun. f_equal. lia. }
    split; [done|]. split; [done|].
    split; [by rewrite H3, Hres|].
    split; [by rewrite H4, Hi|].
    split; [by rewrite H5, Hlog, <- app_assoc|].
    split.
    { rewrite H6, Hin'. subst s0. cbn.
      rewrite (delete_Permutation _ _ _ Hl) at 2. cbn [map].
      rewrite Permutation_app_comm. done. }
    assert (Hin0 : inflight s0 = delete j (inflight s)) by done.
    assert (Hfs : found s0 = found s /\ consecutiveMisses s0 = consecutiveMisses s)
      by done.
    destruct Hfs as [Hfs Hms].
    assert (Hex : existsb (fun l => loads (l_path l)) (inflight s) =
                  loads (l_path l) || existsb (fun l => loads (l_path l)) (delete j (inflight s))).
    { clear -Hl. revert j Hl. induction (inflight s) as [|x xs IHx]; intros j Hl; [done|].
      destruct j; cbn in *.
      - by injection Hl as ->.
      - rewrite (IHx _ Hl). by destruct (loads (l_path x)), (loads (l_path l)). }
    unfold outcome, kept in *. subst f'. cbn [loadedThisIndex] in H7.
    rewrite Hin', Hin0 in H7. rewrite Hex.
    destruct (loadedThisIndex f); cbn [orb] in *.
    { destruct H7, Hk. split; congruence. }
    destruct (loads (l_path l)) eqn:Hok; cbn [orb] in *.
    { exists l. split; [eapply list_elem_of_lookup_2; eauto|].
      destruct H7, Hk. repeat split; congruence. }
    destruct (existsb _ (delete j (inflight s))) eqn:Hex'.
    + destruct H7 as (l' & Hl' & Hok' & Hf' & Hm').
      exists l'. split.
      { eapply list_elem_of_delete_inv; exact Hl'. }
      destruct Hk. repeat split; congruence.
    + destruct H7, Hk. split; congruence.
Qed.


Lemma tryNext_stop s : stops opts s = true -> tryNext folder opts s = resolve s.
Proof. unfold stops, tryNext. by intros ->. Qed.

Lemma tryNext_go s :
  stops opts s = false -> SUFFIXES opts <> [] ->
  tryNext folder opts s =
  set_log (rev (map Attempt (paths folder opts (idx s))) ++ log s)
    (set_inflight
       (inflight s ++
        map (fun sfx => {| l_frame := length (frames s);
                           l_path := mkPath folder (idx s) sfx |})
            (SUFFIXES opts))
       (set_frames
          (frames s ++ [{| loadedThisIndex := false;
                           remaining := Z.of_nat (length (SUFFIXES opts)) |}])
          s)).
Proof.
  unfold stops, tryNext, paths. intros -> Hne. rewrite foldl_issue.
  destruct (SUFFIXES opts) eqn:E; [done|]. destruct s; reflexivity.
Qed.

Lemma step_idle choice s :
  inflight s = [] -> timers s = O -> step folder opts loads choice s = None.
Proof. unfold step. by intros -> ->. Qed.

Lemma run_idle sched fuel t s :
  inflight s = [] -> timers s = O ->
  run folder opts loads sched fuel t s = s.
Proof. intros Hi Ht. destruct fuel; cbn; [done|]. by rewrite step_idle. Qed.

Lemma step_timer choice s :
  inflight s = [] -> timers s = 1%nat ->
  step folder opts loads choice s = Some (tryNext folder opts (set_timers O s)).
Proof.
  unfold step. intros Hi Ht. rewrite Hi, Ht. cbn. reflexivity.
Qed.

Lemma existsb_paths (fr : nat) (i : Z) :
  existsb (fun l => loads (l_path l))
    (map (fun sfx => {| l_frame := fr; l_path := mkPath folder i sfx |})
         (SUFFIXES opts)) = hit folder opts loads i.
Proof.
  unfold hit. induction (SUFFIXES opts) as [|x xs IH]; cbn; [done|].
  by rewrite IH.
Qed.

Lemma round_run sched s t extra :
  entry s -> stops opts s = false -> SUFFIXES opts <> [] ->
  exists s',
    run folder opts loads sched (S (length (SUFFIXES opts)) + extra) t
        (tryNext folder opts s) =
    run folder opts loads sched extra (t + S (length (SUFFIXES opts)))
        (tryNext folder opts s') /\
    round folder opts loads s s'.
Proof.
  intros (Hin & Htm & Hres) Hgo Hne.
  rewrite (tryNext_go s Hgo Hne).
  set (f := {| loadedThisIndex := false;
               remaining := Z.of_nat (length (SUFFIXES opts)) |}).
  set (ls := map (fun sfx => {| l_frame := length (frames s);
                                 l_path := mkPath folder (idx s) sfx |})
                 (SUFFIXES opts)).
  rewrite Hin. cbn [app].
  set (s1 := set_log _ _).
  destruct (length (SUFFIXES opts)) as [|m] eqn:Hn.
  { destruct (SUFFIXES opts); [done|discriminate]. }
  destruct (settle_all sched m t s1 (1 + extra)%nat (length (frames s)) f)
    as (s2 & ss & Hrun & H1 & H2 & H3 & H4 & H5 & H6 & H7).
  { subst s1 ls. cbn. by rewrite length_map. }
  { done. }
  { subst s1. cbn. rewrite lookup_app_r by lia.
    by rewrite Nat.sub_diag. }
  { subst f. cbn. lia. }
  { subst s1 ls. cbn. apply Forall_forall. intros x Hx.
    apply list_elem_of_In, in_map_iff in Hx as (sfx & <- & _). done. }
  exists (set_timers O s2). split.
  { replace (S (S m) + extra)%nat with (S m + (1 + extra))%nat by lia.
    rewrite Hrun. cbn [Nat.add run]. rewrite (step_timer _ s2 H1 H2).
    f_equal. lia. }
  assert (Hlog1 : log s1 = rev (map Attempt (paths folder opts (idx s))) ++ log s)
    by done.
  assert (Hin1 : inflight s1 = ls) by done.
  constructor.
  - cbn. rewrite H4. done.
  - unfold outcome in H7. subst f. cbn [loadedThisIndex] in H7.
    rewrite Hin1 in H7. subst ls.
    rewrite existsb_paths in H7.
    destruct (hit folder opts loads (idx s)).
    + destruct H7 as (l & Hl & Hok & Hf & Hm).
      apply list_elem_of_In, in_map_iff in Hl as (sfx & <- & Hsfx).
      exists sfx. cbn in *. split; [by apply list_elem_of_In|]. done.
    + done.
  - exists ss. cbn. rewrite H5, Hlog1. split; [done|].
    rewrite H6, Hin1. subst ls. split.
    + apply Forall_forall. intros e He.
      apply list_elem_of_In, in_map_iff in He as (l & <- & Hl).
      apply in_map_iff in Hl as (sfx & <- & _). cbn. eauto.
    + rewrite !length_map. done.
  - split; [done|]. split; [done|]. cbn. by rewrite H3.
Qed.

Lemma probe_rounds sched k : forall s t extra,
  entry s -> SUFFIXES opts <> [] ->
  MAX_INDEX opts + 1 - idx s <= Z.of_nat k ->
  exists sf,
    run folder opts loads sched (k * S (length (SUFFIXES opts)) + extra) t
        (tryNext folder opts s) = sf /\
    rounds folder opts loads s sf.
Proof.
  induction k as [|k IH]; intros s t extra He Hne Hk.
  - assert (Hs : stops opts s = true).
    { unfold stops. apply orb_true_iff. left. apply Z.ltb_lt. lia. }
    exists (resolve s). split; [|by constructor].
    rewrite (tryNext_stop s Hs). destruct He as (Hi & Ht & Hr).
    apply run_idle; unfold resolve; rewrite Hr; done.
  - destruct (stops opts s) eqn:Hs.
    + exists (resolve s). split; [|by constructor].
      rewrite (tryNext_stop s Hs). destruct He as (Hi & Ht & Hr).
      apply run_idle; unfold resolve; rewrite Hr; done.
    + destruct (round_run sched s t (k * S (length (SUFFIXES opts)) + extra) He Hs Hne)
        as (s' & Hrun & Hround).
      destruct (IH s' (t + S (length (SUFFIXES opts)))%nat extra) as (sf & Hsf & Hrs).
      { apply Hround. } { done. }
      { rewrite (round_idx _ _ _ _ _ Hround). lia. }
      exists sf. split; [|by econstructor].
      rewrite <- Hsf, <- Hrun. f_equal. lia.
Qed.





Lemma resolve_fields s :
  idx (resolve s) = idx s /\ found (resolve s) = found s /\
  consecutiveMisses (resolve s) = consecutiveMisses s /\
  log (resolve s) = log s /\ inflight (resolve s) = inflight s /\
  timers (resolve s) = timers s.
Proof. unfold resolve. by destruct (resolved s). Qed.

Lemma sweep_stop k s :
  stops opts s = true ->
  sweep folder opts loads k (idx s) (consecutiveMisses s) = [].
Proof. unfold stops. intros H. destruct k; cbn; [done|]. by rewrite H. Qed.

Lemma sweep_go k s :
  stops opts s = false ->
  sweep folder opts loads (S k) (idx s) (consecutiveMisses s) =
  (idx s, hit folder opts loads (idx s)) ::
  sweep folder opts loads k (idx s + 1)
    (if hit folder opts loads (idx s) then 0 else consecutiveMisses s + 1).
Proof. unfold stops. intros H. cbn. by rewrite H. Qed.

Lemma requests_settles ss i :
  Forall (fun e => exists p ok, e = Settle p ok /\ p_idx p = i) ss ->
  requests ss = [].
Proof.
  induction 1 as [|e ss (p & ok & -> & _) _ IH]; [done|]. exact IH.
Qed.

Lemma requests_attempts ps : requests (map Attempt ps) = ps.
Proof. induction ps as [|p ps IH]; [done|]. cbn. f_equal. exact IH. Qed.

Lemma attempts_round s s' :
  round folder opts loads s s' ->
  attempts s' = attempts s ++ paths folder opts (idx s).
Proof.
  intros [_ _ (ss & Hlog & Hss & _) _].
  unfold attempts, trace. fold (requests (rev (log s'))).
  fold (requests (rev (log s))).
  rewrite Hlog, !rev_app_distr, rev_involutive. unfold requests.
  rewrite <- app_assoc, !omap_app. fold (requests (rev ss)).
  rewrite (requests_settles (rev ss) (idx s)).
  - rewrite app_nil_r. f_equal. apply requests_attempts.
  - by apply Forall_rev.
Qed.

Lemma rounds_summary s sf :
  rounds folder opts loads s sf ->
  forall k, MAX_INDEX opts + 1 - idx s <= Z.of_nat k ->
  let r := sweep folder opts loads k (idx s) (consecutiveMisses s) in
  idx sf = idx s + Z.of_nat (length r) /\
  consecutiveMisses sf = misses_after (consecutiveMisses s) r /\
  (exists new, found sf = found s ++ new /\
               map (fun x => p_idx (file x)) new = hits r /\
               Forall (genuine folder opts loads) new) /\
  attempts sf = attempts s ++ flat_map (paths folder opts) (map fst r).
Proof.
  induction 1 as [s Hs|s s' sf Hs Hr Hrs IH]; intros k Hk r.
  - subst r. rewrite (sweep_stop k s Hs).
    destruct (resolve_fields s) as (-> & -> & -> & Hl & _).
    cbn. split; [lia|]. split; [done|]. split.
    + exists []. by rewrite app_nil_r.
    + unfold attempts, trace. by rewrite Hl, app_nil_r.
  - destruct k as [|k].
    { unfold stops in Hs. apply orb_false_iff in Hs as [Hs _].
      apply Z.ltb_ge in Hs. lia. }
    subst r. rewrite (sweep_go k s Hs).
    pose proof (round_idx _ _ _ _ _ Hr) as Hi.
    pose proof (round_found _ _ _ _ _ Hr) as Hf.
    pose proof (attempts_round _ _ Hr) as Ha.
    specialize (IH k). rewrite Hi in IH.
    destruct (hit folder opts loads (idx s)) eqn:Hh.
    + destruct Hf as (sfx & Hsfx & Hok & Hf & Hm). rewrite Hm in IH.
      destruct IH as (I1 & I2 & (new & I3 & I4 & I5) & I6); [lia|].
      cbn [length map flat_map misses_after foldl snd hits omap fst].
      split; [lia|]. split; [exact I2|]. split.
      * eexists (_ :: new). rewrite I3, Hf, <- app_assoc. split; [reflexivity|].
        split; [cbn; f_equal; exact I4|].
        constructor; [|done]. done.
      * rewrite I6, Ha, <- app_assoc. done.
    + destruct Hf as (Hf & Hm). rewrite Hm in IH.
      destruct IH as (I1 & I2 & (new & I3 & I4 & I5) & I6); [lia|].
      cbn [length map flat_map misses_after foldl snd hits omap fst].
      split; [lia|]. split; [exact I2|]. split.
      * exists new. rewrite I3, Hf. done.
      * rewrite I6, Ha, <- app_assoc. done.
Qed.

Lemma rounds_settled s sf :
  rounds folder opts loads s sf -> entry s -> settled sf.
Proof.
  induction 1 as [s Hs|s s' sf Hs Hr Hrs IH]; intros He.
  - destruct He as (Hi & Ht & Hres). unfold settled, resolve. by rewrite Hres.
  - apply IH, Hr.
Qed.


(** Reading the ghost log. *)


Lemma unsettled_app n a b :
  unsettled n (a ++ b) = unsettled n a + unsettled n b.
Proof.
  unfold unsettled. induction a as [|e a IH]; cbn; [done|]. rewrite IH. lia.
Qed.


Lemma unsettled_attempts n i l :
  Forall (attempt_at i) l ->
  unsettled n l = if i =? n then Z.of_nat (length l) else 0.
Proof.
  induction 1 as [|e l (p & -> & Hp) _ IH].
  - by destruct (i =? n).
  - cbn [unsettled foldr length weight]. fold (unsettled n l).
    rewrite IH, Hp. destruct (i =? n); lia.
Qed.

Lemma unsettled_settles n i l :
  Forall (settle_at i) l ->
  unsettled n l = if i =? n then - Z.of_nat (length l) else 0.
Proof.
  induction 1 as [|e l (p & ok & -> & Hp) _ IH].
  - by destruct (i =? n).
  - cbn [unsettled foldr length weight]. fold (unsettled n l).
    rewrite IH, Hp. destruct (i =? n); lia.
Qed.

Lemma entry_idx_attempts i l :
  Forall (attempt_at i) l -> Forall (fun e => entry_idx e <= i) l.
Proof.
  intros H. eapply Forall_impl; [exact H|]. intros e (p & -> & Hp). cbn. lia.
Qed.

Lemma entry_idx_settles i l :
  Forall (settle_at i) l -> Forall (fun e => entry_idx e <= i) l.
Proof.
  intros H. eapply Forall_impl; [exact H|].
  intros e (p & ok & -> & Hp). cbn. lia.
Qed.

Lemma sequenced_attempts i a l :
  Forall (attempt_at i) a ->
  sequenced l -> (forall n, unsettled n l = 0) ->
  Forall (fun e => entry_idx e <= i) l ->
  sequenced (a ++ l).
Proof.
  intros Ha Hl Hb Hi. induction Ha as [|e a (p & -> & Hp) Ha IH]; [done|].
  cbn. split; [|split; [|exact IH]].
  - intros n Hn. rewrite unsettled_app, Hb, (unsettled_attempts n i a Ha).
    destruct (Z.eqb_spec i n); lia.
  - rewrite Hp. apply Forall_app. split; [by apply entry_idx_attempts|done].
Qed.

Lemma sequenced_settles i ss l :
  Forall (settle_at i) ss ->
  sequenced l -> Forall (fun e => entry_idx e <= i) l ->
  Z.of_nat (length ss) <= unsettled i l ->
  sequenced (ss ++ l).
Proof.
  intros Hs Hl Hi. induction Hs as [|e ss (p & ok & -> & Hp) Hs IH]; [done|].
  cbn [length app sequenced]. intros Hlen.
  split; [|split; [|apply IH; lia]].
  - rewrite Hp, unsettled_app, (unsettled_settles i i ss Hs), Z.eqb_refl. lia.
  - rewrite Hp. apply Forall_app. split; [by apply entry_idx_settles|done].
Qed.

Lemma attempts_of_paths i :
  Forall (attempt_at i) (rev (map Attempt (paths folder opts i))).
Proof.
  apply Forall_rev, Forall_forall. intros e He.
  apply list_elem_of_In, in_map_iff in He as (p & <- & Hp).
  apply in_map_iff in Hp as (sfx & <- & _). by exists (mkPath folder i sfx).
Qed.


Lemma round_orderly s s' :
  round folder opts loads s s' -> orderly s -> orderly s'.
Proof.
  intros [Hi _ (ss & Hlog & Hss & Hlen) _] (Hseq & Hbal & Hlt).
  pose proof (attempts_of_paths (idx s)) as Ha.
  assert (Hle : Forall (fun e => entry_idx e <= idx s) (log s)).
  { eapply Forall_impl; [exact Hlt|]. cbn. intros; lia. }
  assert (Hna : length (rev (map Attempt (paths folder opts (idx s)))) =
                length (SUFFIXES opts)).
  { unfold paths. by rewrite length_rev, !length_map. }
  unfold orderly. rewrite Hlog, Hi. split; [|split].
  - apply (sequenced_settles (idx s)); [done| |  |].
    + by apply (sequenced_attempts (idx s)).
    + apply Forall_app. split; [by apply entry_idx_attempts|done].
    + rewrite unsettled_app, Hbal, (unsettled_attempts _ _ _ Ha), Z.eqb_refl.
      lia.
  - intros n. rewrite !unsettled_app, Hbal, (unsettled_attempts _ _ _ Ha),
      (unsettled_settles _ _ _ Hss). destruct (idx s =? n); lia.
  - rewrite !Forall_app. split; [|split].
    + apply entry_idx_settles in Hss. eapply Forall_impl; [exact Hss|].
      cbn. intros; lia.
    + apply entry_idx_attempts in Ha. eapply Forall_impl; [exact Ha|].
      cbn. intros; lia.
    + eapply Forall_impl; [exact Hlt|]. cbn. intros; lia.
Qed.

Lemma rounds_orderly s sf :
  rounds folder opts loads s sf -> orderly s -> orderly sf.
Proof.
  induction 1 as [s Hs|s s' sf Hs Hr Hrs IH]; intros Ho.
  - unfold orderly in *. by destruct (resolve_fields s) as (-> & _ & _ & -> & _).
  - by apply IH, (round_orderly s).
Qed.



(** The hits of a sweep come in increasing order. *)

Lemma hits_cons i (b : bool) r :
  hits ((i, b) :: r) = if b then i :: hits r else hits r.
Proof. by destruct b. Qed.



(** The whole probe. *)

Lemma entry_init : entry init.
Proof. by repeat split. Qed.

Lemma orderly_init : orderly init.
Proof. split; [done|]. split; [done|constructor]. Qed.

Lemma final_rounds sched :
  SUFFIXES opts <> [] ->
  rounds folder opts loads init (final folder opts loads sched).
Proof.
  intros Hne.
  destruct (probe_rounds sched (Z.to_nat (MAX_INDEX opts)) init O O entry_init Hne)
    as (sf & Hrun & Hr).
  { cbn. lia. }
  unfold final, budget. rewrite Nat.add_0_r in Hrun. by rewrite Hrun.
Qed.

Lemma final_no_suffixes sched :
  SUFFIXES opts = [] ->
  final folder opts loads sched = tryNext folder opts init /\
  resolved (tryNext folder opts init) = Some [] /\
  log (tryNext folder opts init) = [] /\
  inflight (tryNext folder opts init) = [] /\
  timers (tryNext folder opts init) = O.
Proof.
  intros He.
  assert (H : resolved (tryNext folder opts init) = Some [] /\
              log (tryNext folder opts init) = [] /\
              inflight (tryNext folder opts init) = [] /\
              timers (tryNext folder opts init) = O).
  { unfold tryNext. rewrite He. cbn. by destruct (_ || _). }
  split; [|exact H]. unfold final. apply run_idle; apply H.
Qed.


(** Sweeps over a folder whose images are numbered 1..k. *)


Lemma sweep_misses k : forall n i m,
  (forall j, k < j -> hit folder opts loads j = false) ->
  k < i -> m = i - k - 1 ->
  MAX_INDEX opts + 1 - i <= Z.of_nat n ->
  sweep folder opts loads n i m =
  tagged false
    (seqZ i (Z.min (MAX_INDEX opts) (k + CONSECUTIVE_MISS_LIMIT opts) - i + 1)).
Proof.
  induction n as [|n IH]; intros i m Hmiss Hi Hm Hn.
  - cbn [sweep]. rewrite seqZ_nil by lia. done.
  - cbn [sweep].
    destruct (Z.ltb_spec (MAX_INDEX opts) i) as [H1|H1]; cbn [orb].
    { rewrite seqZ_nil by lia. done. }
    destruct (Z.leb_spec (CONSECUTIVE_MISS_LIMIT opts) m) as [H2|H2].
    { rewrite seqZ_nil by lia. done. }
    rewrite (Hmiss i Hi), seqZ_cons by lia. unfold tagged. cbn [map].
    f_equal. rewrite (IH (i + 1) (m + 1)); try lia; [|done].
    unfold tagged. do 2 f_equal. lia.
Qed.

Lemma sweep_hits k : forall n i m,
  (forall j, 1 <= j <= k -> hit folder opts loads j = true) ->
  (forall j, k < j -> hit folder opts loads j = false) ->
  1 <= i <= k + 1 -> k <= MAX_INDEX opts ->
  0 <= m < CONSECUTIVE_MISS_LIMIT opts -> (i = k + 1 -> m = 0) ->
  MAX_INDEX opts + 1 - i <= Z.of_nat n ->
  sweep folder opts loads n i m =
  tagged true (seqZ i (k - i + 1)) ++
  tagged false
    (seqZ (k + 1)
       (Z.min (MAX_INDEX opts) (k + CONSECUTIVE_MISS_LIMIT opts) - k)).
Proof.
  assert (Hlast : forall n m, m = 0 ->
            (forall j, k < j -> hit folder opts loads j = false) ->
            MAX_INDEX opts + 1 - (k + 1) <= Z.of_nat n ->
            sweep folder opts loads n (k + 1) m =
            tagged true (seqZ (k + 1) (k - (k + 1) + 1)) ++
            tagged false
              (seqZ (k + 1)
                 (Z.min (MAX_INDEX opts) (k + CONSECUTIVE_MISS_LIMIT opts) - k))).
  { intros n m -> Hmiss Hn.
    rewrite (sweep_misses k n (k + 1) 0 Hmiss) by lia.
    rewrite (seqZ_nil _ (k - _ + 1)) by lia. cbn [tagged map app].
    do 2 f_equal. lia. }
  induction n as [|n IH]; intros i m Hhit Hmiss Hi Hk Hm Hm0 Hn.
  - assert (i = k + 1) as -> by lia. apply Hlast; auto.
  - destruct (Z.eq_dec i (k + 1)) as [->|Hne]; [apply Hlast; auto|].
    cbn [sweep].
    destruct (Z.ltb_spec (MAX_INDEX opts) i) as [H1|H1]; [lia|].
    destruct (Z.leb_spec (CONSECUTIVE_MISS_LIMIT opts) m) as [H2|H2]; [lia|].
    cbn [orb]. rewrite (Hhit i) by lia.
    rewrite (seqZ_cons i) by lia. cbn [tagged map app]. f_equal.
    rewrite (IH (i + 1) 0 Hhit Hmiss) by lia.
    unfold tagged. do 3 f_equal. lia.
Qed.

Lemma hits_tagged_true l : hits (tagged true l) = l.
Proof. induction l as [|x l IH]; [done|]. cbn. f_equal. exact IH. Qed.

Lemma hits_tagged_false l : hits (tagged false l) = [].
Proof. induction l as [|x l IH]; [done|]. exact IH. Qed.

Lemma hits_app a b : hits (a ++ b) = hits a ++ hits b.
Proof. apply omap_app. Qed.


Lemma misses_after_app m a b :
  misses_after m (a ++ b) = misses_after (misses_after m a) b.
Proof. apply foldl_app. Qed.


Lemma hit_true_iff i :
  hit folder opts loads i = true <->
  exists sfx, sfx ∈ SUFFIXES opts /\ loads (mkPath folder i sfx) = true.
Proof.
  unfold hit. rewrite existsb_exists. split.
  - intros (sfx & Hin & Hok). exists sfx. by rewrite list_elem_of_In.
  - intros (sfx & Hin & Hok). exists sfx. by rewrite <- list_elem_of_In.
Qed.

Lemma hit_false i :
  (forall sfx, loads (mkPath folder i sfx) = false) ->
  hit folder opts loads i = false.
Proof.
  intros H. unfold hit. induction (SUFFIXES opts) as [|x xs IH]; [done|].
  cbn. by rewrite H, IH.
Qed.


Lemma hits_all_miss n : forall i m,
  (forall j, hit folder opts loads j = false) ->
  hits (sweep folder opts loads n i m) = [].
Proof.
  induction n as [|n IH]; intros i m H; cbn [sweep]; [done|].
  destruct (_ || _); [done|]. rewrite hits_cons, H. by apply IH.
Qed.


Lemma final_summary sched :
  SUFFIXES opts <> [] ->
  let sf := final folder opts loads sched in
  let r := sweep folder opts loads (Z.to_nat (MAX_INDEX opts)) 1 0 in
  settled sf /\ orderly sf /\
  idx sf = 1 + Z.of_nat (length r) /\
  consecutiveMisses sf = misses_after 0 r /\
  map (fun x => p_idx (file x)) (found sf) = hits r /\
  Forall (genuine folder opts loads) (found sf) /\
  attempts sf = flat_map (paths folder opts) (map fst r).
Proof.
  intros Hne sf r. pose proof (final_rounds sched Hne) as Hr. fold sf in Hr.
  split; [exact (rounds_settled _ _ Hr entry_init)|].
  split; [exact (rounds_orderly _ _ Hr orderly_init)|].
  destruct (rounds_summary _ _ Hr (Z.to_nat (MAX_INDEX opts)))
    as (H1 & H2 & (new & H3 & H4 & H5) & H6).
  { cbn. lia. }
  cbn in H3. subst r. rewrite H3. auto.
Qed.







(** C4: with an empty suffix list the call resolves at once with the empty
    array, and no image is requested. *)
Theorem probe_no_suffixes (mi ml : option Z) sched :
  let o := {| maxIndex := mi; missLimit := ml; suffixes := Some [] |} in
  resolved (tryNext folder o init) = Some [] /\
  probeImagesInFolder folder o loads sched = Some [] /\
  trace (final folder o loads sched) = [].
Proof.
  intros o. unfold probeImagesInFolder, final, budget, tryNext. cbn.
  destruct (_ || _); cbn; rewrite Nat.mul_1_r;
    destruct (Z.to_nat _); done.
Qed.


End Facts.

Lemma run_ext folder o1 o2 loads sched :
  MAX_INDEX o1 = MAX_INDEX o2 ->
  CONSECUTIVE_MISS_LIMIT o1 = CONSECUTIVE_MISS_LIMIT o2 ->
  SUFFIXES o1 = SUFFIXES o2 ->
  forall fuel t s,
    run folder o1 loads sched fuel t s = run folder o2 loads sched fuel t s.
Proof.
  intros Hm Hl Hs.
  assert (Ht : forall s, tryNext folder o1 s = tryNext folder o2 s).
  { intros s. unfold tryNext. by rewrite Hm, Hl, Hs. }
  induction fuel as [|fuel IH]; intros t s; [done|].
  cbn [run]. unfold step. rewrite Ht.
  destruct (_ + _)%nat; [done|].
  destruct (inflight s !! _); apply IH.
Qed.

Lemma final_ext folder o1 o2 loads sched :
  MAX_INDEX o1 = MAX_INDEX o2 ->
  CONSECUTIVE_MISS_LIMIT o1 = CONSECUTIVE_MISS_LIMIT o2 ->
  SUFFIXES o1 = SUFFIXES o2 ->
  final folder o1 loads sched = final folder o2 loads sched.
Proof.
  intros Hm Hl Hs. unfold final, budget, tryNext.
  rewrite Hm, Hl, Hs. by apply run_ext.
Qed.

(** C10: [0] given for [maxIndex] or for [missLimit] counts as absent: the
    probe runs as with the defaults 12 and 4; with [missLimit: 0] the first
    call of [tryNext] does not resolve the promise but requests the images
    of index 1. *)
Theorem probe_zero_is_default folder (mi ml : option Z) sfx loads sched :
  let o_max0 := {| maxIndex := Some 0; missLimit := ml; suffixes := sfx |} in
  let o_max := {| maxIndex := None; missLimit := ml; suffixes := sfx |} in
  let o_lim0 := {| maxIndex := mi; missLimit := Some 0; suffixes := sfx |} in
  let o_lim := {| maxIndex := mi; missLimit := None; suffixes := sfx |} in
  MAX_INDEX o_max0 = 12 /\ CONSECUTIVE_MISS_LIMIT o_lim0 = 4 /\
  final folder o_max0 loads sched = final folder o_max loads sched /\
  final folder o_lim0 loads sched = final folder o_lim loads sched /\
  probeImagesInFolder folder o_max0 loads sched =
    probeImagesInFolder folder o_max loads sched /\
  probeImagesInFolder folder o_lim0 loads sched =
    probeImagesInFolder folder o_lim loads sched /\
  (1 <= MAX_INDEX o_lim0 -> SUFFIXES o_lim0 <> [] ->
   resolved (tryNext folder o_lim0 init) = None /\
   map l_path (inflight (tryNext folder o_lim0 init)) = paths folder o_lim0 1).
Proof.
  intros o_max0 o_max o_lim0 o_lim.
  assert (E1 : final folder o_max0 loads sched = final folder o_max loads sched)
    by (by apply final_ext).
  assert (E2 : final folder o_lim0 loads sched = final folder o_lim loads sched)
    by (by apply final_ext).
  unfold probeImagesInFolder. rewrite E1, E2.
  repeat (split; [done|]).
  intros Hmax Hne. rewrite tryNext_go; [|unfold stops; cbn|done].
  - cbn. split; [done|]. unfold paths. rewrite map_map. done.
  - apply orb_false_iff. split; [apply Z.ltb_ge; exact Hmax|done].
Qed.






Lemma probe_zero_is_default_witness :
  let o := {| maxIndex := None; missLimit := Some 0; suffixes := None |} in
  resolved (tryNext "Cot" o init) = None /\
  map l_path (inflight (tryNext "Cot" o init)) = paths "Cot" o 1.
Proof.
  destruct (probe_zero_is_default "Cot" None None None Sample.no_files
              Sample.by_turns) as (_ & _ & _ & _ & _ & _ & H).
  apply H; [cbn; lia | discriminate].
Defined.

End ProbeFacts.

(** ** The carousel and the grid *)

Module CarouselFacts.
Import Catalog Carousel.

(** What [showImage] never touches, however it ends. *)
Lemma showImage_frame i c :
  let c' := state_of (showImage i c) in
  images c' = images c /\ interval c' = interval c /\
  isPaused c' = isPaused c /\ intervals_set c' = intervals_set c /\
  c_name c' = c_name c /\ hint c' = hint c.
Proof.
  unfold showImage. destruct (_ =? 0); [done|].
  destruct (Js.index _ _); [|done]. by destruct (1 <? _).
Qed.

Lemma showImage_empty i c : images c = [] -> showImage i c = Normal c.
Proof. unfold showImage. by intros ->. Qed.

Lemma showImage_ok i c :
  let n := Z.of_nat (length (images c)) in
  images c <> [] -> - n <= i ->
  exists c', showImage i c = Normal c' /\
    idx c' = (i + n) mod n /\
    prev_display c' = (if 1 <? n then "" else "none") /\
    next_display c' = (if 1 <? n then "" else "none").
Proof.
  intros n Hne Hi.
  assert (Hn : 0 < n).
  { subst n. destruct (images c); [done|]. cbn [length]. lia. }
  unfold showImage. fold n.
  destruct (Z.eqb_spec n 0) as [|_]; [lia|].
  assert (Hrem : Js.rem (i + n) n = (i + n) mod n).
  { unfold Js.rem. apply Z.rem_mod_nonneg; lia. }
  pose proof (Z.mod_pos_bound (i + n) n Hn) as Hb.
  unfold Js.index. cbn [idx set_idx images]. rewrite Hrem.
  destruct (Z.ltb_spec ((i + n) mod n) 0) as [|_]; [lia|].
  destruct (images c !! Z.to_nat ((i + n) mod n)) as [im|] eqn:Him.
  - eexists. split; [reflexivity|]. by destruct (1 <? n).
  - apply lookup_ge_None in Him. lia.
Qed.

Lemma showImage_step i c :
  in_range c -> idx c - 1 <= i <= idx c + 1 ->
  in_range (state_of (showImage i c)) /\
  (images c <> [] ->
   exists c', showImage i c = Normal c' /\
     idx c' = (i + Z.of_nat (length (images c))) mod Z.of_nat (length (images c)) /\
     prev_display c' = (if 1 <? Z.of_nat (length (images c)) then "" else "none") /\
     next_display c' = (if 1 <? Z.of_nat (length (images c)) then "" else "none")).
Proof.
  intros Hr Hi. destruct (decide (images c = [])) as [He|Hne].
  - rewrite (showImage_empty i c He). split; [done|]. by intros [].
  - specialize (Hr Hne).
    destruct (showImage_ok i c Hne) as (c' & Hc & Hidx & Hp & Hn); [lia|].
    split; [|by eauto].
    pose proof (showImage_frame i c) as (Him & _). rewrite Hc in *.
    cbn in *. intros _. rewrite Him, Hidx. apply Z.mod_pos_bound. lia.
Qed.

Lemma startAuto_fields c :
  let c' := startAuto c in
  images c' = images c /\ idx c' = idx c /\ isPaused c' = isPaused c /\
  prev_display c' = prev_display c /\ next_display c' = next_display c.
Proof.
  unfold startAuto, stopAuto.
  destruct (interval c); cbn; destruct (_ <=? 1); done.
Qed.

Lemma dispatch_KeyDown key c :
  dispatch (KeyDown key) c = dispatch NextClick c \/
  dispatch (KeyDown key) c = dispatch PrevClick c \/
  dispatch (KeyDown key) c = set_isPaused (negb (isPaused c)) c \/
  dispatch (KeyDown key) c = c.
Proof.
  unfold dispatch. cbn [handle]. unfold onKeyDown.
  destruct (String.eqb_spec key "ArrowRight") as [->|_].
  { left. cbn. by destruct (showImage (idx c + 1) c). }
  destruct (String.eqb_spec key "ArrowLeft") as [->|_].
  { right. left. cbn. by destruct (showImage (idx c - 1) c). }
  destruct (String.eqb_spec key " ") as [->|_]; cbn; auto.
Qed.

(** Proving a property of the card after any one event. *)
Lemma dispatch_cases (P : Card -> Prop) c :
  P (state_of (showImage (idx c - 1) c)) ->
  P (state_of (showImage (idx c + 1) c)) ->
  (forall b, P (set_isPaused b c)) ->
  P (onClick c) ->
  (interval c <> None -> isPaused c = false ->
   P (state_of
        (showImage (Js.rem (idx c + 1) (Z.of_nat (length (images c)))) c))) ->
  P c ->
  forall e, P (dispatch e c).
Proof.
  intros Hprev Hnext Hp Hclick Htick Hc e.
  assert (Hbasic : forall e, (forall k, e <> KeyDown k) -> P (dispatch e c)).
  { intros e' Hk. unfold dispatch. destruct e'; cbn; auto.
    - by destruct (Hk key).
    - destruct (interval c) eqn:Hi; [|done]. unfold tick.
      destruct (isPaused c) eqn:Hpa; cbn; [done|]. by apply Htick. }
  destruct e; try (apply Hbasic; discriminate).
  destruct (dispatch_KeyDown key c) as [-> | [-> | [-> | ->]]]; auto;
    apply Hbasic; discriminate.
Qed.

Lemma onClick_fields c :
  images (onClick c) = images c /\ idx (onClick c) = idx c /\
  prev_display (onClick c) = prev_display c /\
  next_display (onClick c) = next_display c.
Proof.
  unfold onClick. destruct (_ && _); [|done].
  by destruct (startAuto_fields (set_isPaused (negb (isPaused c)) c))
    as (-> & -> & _ & -> & ->).
Qed.

Lemma dispatch_images e c : images (dispatch e c) = images c.
Proof.
  apply dispatch_cases; try done; try apply showImage_frame.
  - apply onClick_fields.
  - intros _ _. apply showImage_frame.
Qed.

Lemma dispatch_in_range e c : in_range c -> in_range (dispatch e c).
Proof.
  intros Hr. apply dispatch_cases; try done.
  - apply showImage_step; [done|lia].
  - apply showImage_step; [done|lia].
  - unfold in_range.
    by destruct (onClick_fields c) as (-> & -> & _).
  - intros _ _. destruct (decide (images c = [])) as [He|Hne].
    + by rewrite showImage_empty.
    + specialize (Hr Hne).
      set (n := Z.of_nat (length (images c))) in *.
      assert (Hrem : Js.rem (idx c + 1) n = (idx c + 1) mod n).
      { unfold Js.rem. apply Z.rem_mod_nonneg; lia. }
      pose proof (Z.mod_pos_bound (idx c + 1) n) as Hb.
      destruct (showImage_ok (Js.rem (idx c + 1) n) c Hne)
        as (c' & Hc & Hidx & _); [fold n; lia|].
      pose proof (showImage_frame (Js.rem (idx c + 1) n) c) as (Him & _).
      rewrite Hc in *. cbn in *. intros _. rewrite Him, Hidx.
      apply Z.mod_pos_bound. lia.
Qed.

Lemma run_in_range evs : forall c, in_range c -> in_range (run evs c).
Proof.
  induction evs as [|e evs IH]; intros c Hc; [done|].
  apply IH, dispatch_in_range, Hc.
Qed.

Lemma onProbeComplete_in_range found c :
  in_range c -> in_range (state_of (onProbeComplete found c)).
Proof.
  intros Hr. unfold onProbeComplete.
  destruct (Z.ltb_spec 0 (Z.of_nat (length found))) as [Hlen|Hlen]; [|done].
  set (c2 := set_hint _ _).
  assert (Hne : images c2 <> []).
  { subst c2. cbn. destruct found; [cbn in Hlen; lia|done]. }
  destruct (showImage_ok 0 c2 Hne) as (c3 & Hc & Hidx & _); [lia|].
  pose proof (showImage_frame 0 c2) as (Him & _).
  rewrite Hc in *. cbn [bind state_of] in *.
  destruct (startAuto_fields c3) as (Hi1 & Hi2 & _).
  intros _. rewrite Hi1, Hi2, Him, Hidx. apply Z.mod_pos_bound.
  destruct (images c2); [done|]. cbn [length]. lia.
Qed.

Lemma createProductCard_in_range p : in_range (createProductCard p).
Proof. by intros []. Qed.


(** Cards without images. *)

Lemma startAuto_idle c :
  interval c = None -> (length (images c) <= 1)%nat -> startAuto c = c.
Proof.
  unfold startAuto, stopAuto. intros -> Hl.
  destruct (Z.leb_spec (Z.of_nat (length (images c))) 1); [done|lia].
Qed.

Lemma onClick_bare c : bare c -> bare (onClick c).
Proof.
  intros (Hi & Hx & Ht & Hs & Hp & Hn). unfold onClick.
  destruct (_ && _); [|done].
  rewrite startAuto_idle; [done|done|]. cbn. rewrite Hi. cbn. lia.
Qed.

Lemma dispatch_bare e c : bare c -> bare (dispatch e c).
Proof.
  intros Hb. pose proof Hb as (Hi & _).
  apply dispatch_cases.
  - by rewrite (showImage_empty _ c Hi).
  - by rewrite (showImage_empty _ c Hi).
  - intros b. by destruct Hb as (? & ? & ? & ? & ? & ?).
  - by apply onClick_bare.
  - intros _ _. by rewrite (showImage_empty _ c Hi).
  - done.
Qed.

Lemma run_bare evs : forall c, bare c -> bare (run evs c).
Proof.
  induction evs as [|e evs IH]; intros c Hc; [done|].
  apply IH, dispatch_bare, Hc.
Qed.

Lemma createProductCard_bare p : bare (createProductCard p).
Proof. by repeat split. Qed.

Lemma onProbeComplete_none c :
  bare c -> bare (state_of (onProbeComplete [] c)).
Proof. by intros (? & ? & ? & ? & ? & ?). Qed.

(** Cards with images. *)

Lemma onProbeComplete_active found c :
  bare c -> found <> [] ->
  active (length found) (state_of (onProbeComplete found c)).
Proof.
  intros (_ & _ & Ht & Hs & _ & _) Hne. unfold onProbeComplete.
  assert (Hlen : (0 < length found)%nat).
  { destruct found; [done|]. cbn. lia. }
  destruct (Z.ltb_spec 0 (Z.of_nat (length found))) as [_|]; [|lia].
  set (c2 := set_hint _ _).
  assert (Hl2 : length (images c2) = length found).
  { subst c2. cbn. by rewrite length_map. }
  assert (Hne2 : images c2 <> []).
  { intros E. rewrite E in Hl2. cbn in Hl2. lia. }
  destruct (showImage_ok 0 c2 Hne2) as (c3 & Hc & Hidx & Hp & Hn); [lia|].
  pose proof (showImage_frame 0 c2) as (Him & Hint & _ & Hset & _).
  rewrite Hc in *. cbn [bind state_of] in *. rewrite Hl2 in *.
  assert (Hi3 : interval c3 = None) by (by rewrite Hint).
  assert (Hs3 : intervals_set c3 = O) by (by rewrite Hset).
  assert (Hl3 : length (images c3) = length found) by (by rewrite Him).
  rewrite Z.add_0_l, Z.mod_same in Hidx by lia.
  unfold active, startAuto, stopAuto. rewrite Hi3, Hl3.
  destruct (Z.leb_spec (Z.of_nat (length found)) 1) as [H1|H1].
  - rewrite Hl3, Hidx, Hi3, Hs3, Hp, Hn.
    destruct (Z.ltb_spec 1 (Z.of_nat (length found))); [lia|].
    repeat split; try done; lia.
  - cbn. rewrite Hl3, Hidx, Hs3, Hp, Hn.
    destruct (Z.ltb_spec 1 (Z.of_nat (length found))); [|lia].
    repeat split; try done; lia.
Qed.

Lemma showImage_active n i c :
  active n c -> (1 <= n)%nat -> - Z.of_nat n <= i ->
  exists c', showImage i c = Normal c' /\ active n c' /\
    idx c' = (i + Z.of_nat n) mod Z.of_nat n /\ isPaused c' = isPaused c.
Proof.
  intros (Hl & Hx & H1 & H2) Hn Hi.
  assert (Hne : images c <> []).
  { intros E. rewrite E in Hl. cbn in Hl. lia. }
  destruct (showImage_ok i c Hne) as (c' & Hc & Hidx & Hp & Hnx);
    [rewrite Hl; lia|].
  pose proof (showImage_frame i c) as (Him & Hint & Hpa & Hset & _).
  rewrite Hc in *. cbn [state_of] in *. rewrite Hl in *.
  exists c'. split; [done|]. split; [|done].
  unfold active. rewrite Him, Hint, Hset, Hp, Hnx, Hidx.
  split; [done|]. split; [apply Z.mod_pos_bound; lia|]. split.
  - intros ->. destruct H1 as (? & ? & _); [done|]. by cbn.
  - intros Hn2. destruct (Z.ltb_spec 1 (Z.of_nat n)); [|lia].
    destruct H2 as (? & ? & _); done.
Qed.

Lemma onClick_active n c : active n c -> (1 <= n)%nat -> active n (onClick c).
Proof.
  intros (Hl & Hx & H1 & H2) Hn. unfold onClick.
  destruct (negb (isPaused (set_isPaused _ c)) && _) eqn:Hcond; [|done].
  apply andb_true_iff in Hcond as (_ & Hint). cbn in Hint.
  apply negb_true_iff, bool_decide_eq_false in Hint.
  assert (Hnone : interval c = None).
  { destruct (interval c); [|done]. by destruct Hint. }
  destruct (decide (n = 1%nat)) as [->|Hn1].
  - rewrite startAuto_idle; [done|done|]. cbn. lia.
  - destruct H2 as (Hsome & _); [lia|]. congruence.
Qed.

Lemma dispatch_active n e c :
  (1 <= n)%nat -> active n c -> active n (dispatch e c).
Proof.
  intros Hn Ha. pose proof Ha as (Hl & Hx & H1 & H2).
  apply dispatch_cases; try done.
  - destruct (showImage_active n (idx c - 1) c Ha Hn) as (c' & -> & Ha' & _);
      [lia|done].
  - destruct (showImage_active n (idx c + 1) c Ha Hn) as (c' & -> & Ha' & _);
      [lia|done].
  - by apply onClick_active.
  - intros _ _. rewrite Hl.
    assert (Hrem : Js.rem (idx c + 1) (Z.of_nat n) = (idx c + 1) mod Z.of_nat n).
    { unfold Js.rem. apply Z.rem_mod_nonneg; lia. }
    pose proof (Z.mod_pos_bound (idx c + 1) (Z.of_nat n)) as Hb.
    destruct (showImage_active n (Js.rem (idx c + 1) (Z.of_nat n)) c Ha Hn)
      as (c' & -> & Ha' & _); [lia|done].
Qed.

Lemma run_active n evs : forall c,
  (1 <= n)%nat -> active n c -> active n (run evs c).
Proof.
  induction evs as [|e evs IH]; intros c Hn Hc; [done|].
  by apply IH, dispatch_active.
Qed.

Lemma life_active p pre found post :
  found <> [] -> active (length found) (life p pre found post).
Proof.
  intros Hne. unfold life. apply run_active.
  - destruct found; [done|]. cbn. lia.
  - apply onProbeComplete_active; [|done].
    apply run_bare, createProductCard_bare.
Qed.


Lemma rem_wrap i n :
  0 < n -> - n <= i ->
  (i + n) mod n = Js.rem (Js.rem i n + n) n /\ (i + n) mod n = i mod n.
Proof.
  intros Hn Hi. unfold Js.rem.
  assert (E : (i + n) mod n = i mod n).
  { rewrite <- (Z.mul_1_l n) at 1. apply Z_mod_plus_full. }
  split; [|exact E]. rewrite E.
  pose proof (Z.rem_bound_abs i n ltac:(lia)) as Hb.
  pose proof (Z.quot_rem' i n) as Hq.
  rewrite Z.rem_mod_nonneg by lia.
  replace (Z.rem i n + n) with (i + (1 - Z.quot i n) * n) by lia.
  by rewrite Z_mod_plus_full.
Qed.

(** C1, on [L > 0] images, for the integers [i] with [-L <= i] whose sum
    [i + L] is exact (at most 2^53): [showImage(i)] sets the index to
    [((i % L) + L) % L], that is [i] modulo [L] in [0, L), and shows the
    image at that index with its alt text. *)
Theorem showImage_wraps i c :
  let n := Z.of_nat (length (images c)) in
  images c <> [] -> - n <= i -> Js.safe i -> Js.safe (i + n) ->
  exists c' im,
    showImage i c = Normal c' /\
    idx c' = Js.rem (Js.rem i n + n) n /\
    idx c' = i mod n /\ 0 <= idx c' < n /\
    images c !! Z.to_nat (idx c') = Some im /\
    thumb_src c' = Probe.render (Probe.file im) /\
    thumb_alt c' =
      (if String.eqb (Probe.alt im) "" then c_name c else Probe.alt im).
Proof.
  intros n Hne Hi _ _.
  assert (Hn : 0 < n).
  { subst n. destruct (images c); [done|]. cbn [length]. lia. }
  destruct (rem_wrap i n Hn Hi) as (E1 & E2).
  pose proof (Z.mod_pos_bound i n Hn) as Hb.
  unfold showImage. fold n.
  destruct (Z.eqb_spec n 0) as [|_]; [lia|].
  assert (Hrem : Js.rem (i + n) n = i mod n).
  { unfold Js.rem. rewrite Z.rem_mod_nonneg by lia. exact E2. }
  unfold Js.index. cbn [idx set_idx images]. rewrite Hrem.
  destruct (Z.ltb_spec (i mod n) 0) as [|_]; [lia|].
  destruct (images c !! Z.to_nat (i mod n)) as [im|] eqn:Him.
  - eexists _, im. split; [reflexivity|].
    destruct (1 <? n); cbn; rewrite <- E1, E2; done.
  - apply lookup_ge_None in Him. lia.
Qed.

Lemma showImage_wraps_witness :
  exists c' im,
    showImage (-3) Sample.three_images = Normal c' /\
    idx c' = Js.rem (Js.rem (-3) 3 + 3) 3 /\
    idx c' = (-3) mod 3 /\ 0 <= idx c' < 3 /\
    images Sample.three_images !! Z.to_nat (idx c') = Some im /\
    thumb_src c' = Probe.render (Probe.file im) /\
    thumb_alt c' =
      (if String.eqb (Probe.alt im) "" then c_name Sample.three_images
       else Probe.alt im).
Proof.
  apply (showImage_wraps (-3) Sample.three_images);
    [done | vm_compute; discriminate | |];
    unfold Js.safe; change (Z.of_nat (length (images Sample.three_images)))
      with 3; lia.
Defined.

(** Below [-L] the index is not normalised, although every number of the
    computation is small and exact: on three images [showImage(-4)] leaves
    the index at [-1], not at [2], and throws on [images[-1].file]. *)
Lemma showImage_wraps_counterexample :
  active 3 Sample.three_images /\
  idx (state_of (showImage (-4) Sample.three_images)) = -1 /\
  Js.rem (Js.rem (-4) 3 + 3) 3 = 2 /\
  idx (state_of (showImage (-4) Sample.three_images))
    <> Js.rem (Js.rem (-4) 3 + 3) 3 /\
  showImage (-4) Sample.three_images
    = Thrown (set_idx (-1) Sample.three_images).
Proof.
  split.
  { exact (life_active Sample.cot []
             [Sample.image 1; Sample.image 2; Sample.image 3] []
             ltac:(discriminate)). }
  repeat split; done.
Qed.

(** C5: a card whose probe found exactly one image never sets an interval,
    and its previous and next buttons stay hidden, before and after the
    probe ends, whatever the events. *)
Theorem single_image_no_autoplay p pre f post :
  let c0 := run pre (createProductCard p) in
  let c := life p pre [f] post in
  (interval c0 = None /\ intervals_set c0 = O /\
   prev_display c0 = "none" /\ next_display c0 = "none") /\
  (interval c = None /\ intervals_set c = O /\
   prev_display c = "none" /\ next_display c = "none") /\
  startAuto c = c /\ onClick c = set_isPaused (negb (isPaused c)) c.
Proof.
  intros c0 c.
  destruct (run_bare pre _ (createProductCard_bare p))
    as (_ & _ & H1 & H2 & H3 & H4).
  split; [done|].
  destruct (life_active p pre [f] post) as (Hl & _ & Hone & _); [done|].
  destruct Hone as (Hi & Hs & Hp & Hn); [done|]. fold c in Hl, Hi, Hs, Hp, Hn.
  split; [done|].
  assert (Hidle : forall b, startAuto (set_isPaused b c) = set_isPaused b c).
  { intros b. apply startAuto_idle; [done|]. cbn. by rewrite Hl. }
  split.
  - apply startAuto_idle; [done|]. by rewrite Hl.
  - unfold onClick. destruct (_ && _); [apply Hidle|done].
Qed.

(** C6: a card whose probe found two images or more shows its buttons and
    has its interval set; a tick moves the index one step forward, around
    the end, unless the card is paused, and then changes nothing. *)
Theorem autoplay_advances p pre found post :
  (2 <= length found)%nat ->
  let c := life p pre found post in
  let n := Z.of_nat (length found) in
  prev_display c = "" /\ next_display c = "" /\
  interval c = Some 1%nat /\ intervals_set c = 1%nat /\
  (isPaused c = false ->
   exists c', handle Tick c = Normal c' /\ idx c' = (idx c + 1) mod n /\
              dispatch Tick c = c') /\
  (isPaused c = true -> dispatch Tick c = c).
Proof.
  intros Hlen c n.
  assert (Hne : found <> []) by (intros ->; cbn in Hlen; lia).
  pose proof (life_active p pre found post Hne) as Ha. fold c in Ha.
  pose proof Ha as (Hl & Hx & _ & Htwo).
  destruct Htwo as (Hi & Hs & Hp & Hn); [done|].
  repeat (split; [done|]). split.
  - intros Hpa. unfold dispatch. cbn [handle]. rewrite Hi. unfold tick.
    rewrite Hpa, Hl. cbn [negb]. fold n.
    assert (Hrem : Js.rem (idx c + 1) n = (idx c + 1) mod n).
    { unfold Js.rem. apply Z.rem_mod_nonneg; lia. }
    pose proof (Z.mod_pos_bound (idx c + 1) n) as Hb.
    destruct (showImage_active _ (Js.rem (idx c + 1) n) c Ha)
      as (c' & Hc & _ & Hidx & _); [lia|fold n; lia|].
    exists c'. rewrite Hc. split; [done|]. split; [|done].
    fold n in Hidx. rewrite Hidx, Hrem.
    rewrite <- (Z.mul_1_l n) at 2. rewrite Z_mod_plus_full.
    apply Z.mod_mod. lia.
  - intros Hpa. unfold dispatch. cbn [handle]. rewrite Hi. unfold tick.
    by rewrite Hpa.
Qed.

Lemma autoplay_advances_witness :
  let c := life Sample.cot [Click] [Sample.image 1; Sample.image 2]
             [NextClick; Click] in
  prev_display c = "" /\ next_display c = "" /\
  interval c = Some 1%nat /\ intervals_set c = 1%nat /\
  (isPaused c = false ->
   exists c', handle Tick c = Normal c' /\ idx c' = (idx c + 1) mod 2 /\
              dispatch Tick c = c') /\
  (isPaused c = true -> dispatch Tick c = c).
Proof.
  apply (autoplay_advances Sample.cot [Click]
           [Sample.image 1; Sample.image 2] [NextClick; Click]).
  cbn. lia.
Defined.

(** C8: [0 <= idx < images.length] whenever [images] is not empty: it
    holds for a new card, every listener, the interval's callback and the
    end of the probe keep it, and so it holds all along a card's life. *)
Theorem index_stays_in_range :
  (forall p, in_range (createProductCard p)) /\
  (forall e c, in_range c -> in_range (dispatch e c)) /\
  (forall found c, in_range c -> in_range (state_of (onProbeComplete found c))) /\
  (forall p pre found post,
     in_range (run pre (createProductCard p)) /\
     in_range (life p pre found post)).
Proof.
  split; [apply createProductCard_in_range|].
  split; [apply dispatch_in_range|].
  split; [apply onProbeComplete_in_range|].
  intros p pre found post.
  assert (H : in_range (run pre (createProductCard p))).
  { apply run_in_range, createProductCard_in_range. }
  split; [done|]. by apply run_in_range, onProbeComplete_in_range.
Qed.

Lemma index_stays_in_range_witness :
  0 <= idx (dispatch PrevClick Sample.three_images) < 3 /\
  0 <= idx (life Sample.cot [NextClick] [Sample.image 1; Sample.image 2]
              [PrevClick; Tick; KeyDown "ArrowLeft"]) < 2.
Proof.
  destruct index_stays_in_range as (_ & Hd & _ & Hl). split.
  - apply (Hd PrevClick Sample.three_images); [|done].
    intros _. vm_compute. split; [discriminate | reflexivity].
  - apply (Hl Sample.cot [NextClick] [Sample.image 1; Sample.image 2]
              [PrevClick; Tick; KeyDown "ArrowLeft"]). done.
Defined.

(** A folder with [1.jpg] and [2.png] gives a card of two images, and
    the previous button at index 0 goes to index 1. *)
Example two_files_card :
  option_map (fun c => (length (images c), idx c, idx (dispatch PrevClick c)))
    (card_life Sample.cot Sample.two_files Sample.by_turns [] [])
  = Some (2%nat, 0, 1).
Proof. vm_compute. reflexivity. Qed.

End CarouselFacts.

Module GridFacts.
Import Catalog Carousel Grid.

(** C7: when the catalog request fails, the embedded list of 21 products
    is used and 21 cards are put into the container, each showing the
    loading placeholder and the hint. *)
Theorem fallback_renders_embedded old o :
  failed o ->
  length EMBEDDED_PRODUCTS = 21%nat /\
  exists cards,
    loadProducts (Some old) o = Some (Cards cards) /\
    cards = map createProductCard EMBEDDED_PRODUCTS /\
    length cards = 21%nat /\
    Forall (fun c => thumb_src c = placeholder /\
                     hint c = "Images loading…" /\
                     images c = [] /\
                     prev_display c = "none" /\ next_display c = "none")
           cards.
Proof.
  intros Hf. split; [done|].
  assert (Hnull : safeFetchJson o = JNull).
  { destruct o as [|status body]; [done|]. cbn in *.
    destruct Hf as [->| ->]; [done|]. by destruct (ok status). }
  exists (map createProductCard EMBEDDED_PRODUCTS).
  unfold loadProducts. rewrite Hnull.
  split; [done|]. split; [done|]. split; [done|].
  repeat constructor.
Qed.

Lemma fallback_renders_embedded_witness :
  length EMBEDDED_PRODUCTS = 21%nat /\
  exists cards,
    loadProducts (Some (Html "")) (Response 404 None) = Some (Cards cards) /\
    cards = map createProductCard EMBEDDED_PRODUCTS /\
    length cards = 21%nat /\
    Forall (fun c => thumb_src c = placeholder /\
                     hint c = "Images loading…" /\
                     images c = [] /\
                     prev_display c = "none" /\ next_display c = "none")
           cards.
Proof.
  apply (fallback_renders_embedded (Html "") (Response 404 None)).
  left. reflexivity.
Defined.

End GridFacts.

(** ** More on the probe *)

Module ProbeMore.
Import Probe ProbeFacts Views.

Section More.

Variable folder : string.
Variable opts : Options.
Variable loads : Path -> bool.




Lemma found_no_suffixes :
  SUFFIXES opts = [] -> found (tryNext folder opts init) = [].
Proof. intros He. unfold tryNext. rewrite He. cbn. by destruct (_ || _). Qed.







Lemma numbered_result sched k :
  0 <= k <= MAX_INDEX opts -> 1 <= CONSECUTIVE_MISS_LIMIT opts ->
  numbered folder opts loads k ->
  exists r, probeImagesInFolder folder opts loads sched = Some r /\
            indices r = seqZ 1 k.
Proof.
  intros Hk Hlim (Hhit & Hmiss).
  destruct (decide (SUFFIXES opts = [])) as [He|Hne].
  - destruct (final_no_suffixes folder opts loads sched He) as (Hf & Hr & _).
    assert (k = 0) as ->.
    { destruct (Z.eq_dec k 0) as [|Hk0]; [done|].
      destruct (Hhit 1) as (sfx & Hin & _); [lia|].
      rewrite He in Hin. by apply elem_of_nil in Hin. }
    exists []. unfold probeImagesInFolder. by rewrite Hf.
  - destruct (final_summary folder opts loads sched Hne)
      as ((_ & _ & Hres) & _ & _ & _ & Hfound & _).
    assert (Hh : forall j, 1 <= j <= k -> hit folder opts loads j = true).
    { intros j Hj. by apply hit_true_iff, Hhit. }
    assert (Hm : forall j, k < j -> hit folder opts loads j = false).
    { intros j Hj. apply hit_false. intros sfx. by apply Hmiss. }
    rewrite (sweep_hits folder opts loads k _ 1 0 Hh Hm) in Hfound by lia.
    replace (k - 1 + 1) with k in Hfound by lia.
    eexists. split; [exact Hres|]. unfold indices.
    by rewrite Hfound, hits_app, hits_tagged_true, hits_tagged_false,
      app_nil_r.
Qed.

Lemma empty_result sched :
  (forall i sfx, loads (mkPath folder i sfx) = false) ->
  probeImagesInFolder folder opts loads sched = Some [].
Proof.
  intros Hfail. destruct (decide (SUFFIXES opts = [])) as [He|Hne].
  - destruct (final_no_suffixes folder opts loads sched He) as (Hf & Hr & _).
    unfold probeImagesInFolder. by rewrite Hf.
  - destruct (final_summary folder opts loads sched Hne)
      as ((_ & _ & Hres) & _ & _ & _ & Hfound & _).
    rewrite hits_all_miss in Hfound.
    + unfold probeImagesInFolder. rewrite Hres. f_equal.
      by destruct (found _).
    + intros j. apply hit_false. intros sfx. apply Hfail.
Qed.

Lemma order_independent sched1 sched2 :
  let s1 := final folder opts loads sched1 in
  let s2 := final folder opts loads sched2 in
  indices (found s1) = indices (found s2) /\
  attempts s1 = attempts s2 /\
  idx s1 = idx s2 /\ consecutiveMisses s1 = consecutiveMisses s2.
Proof.
  intros s1 s2. destruct (decide (SUFFIXES opts = [])) as [He|Hne].
  - destruct (final_no_suffixes folder opts loads sched1 He) as (Hf1 & _).
    destruct (final_no_suffixes folder opts loads sched2 He) as (Hf2 & _).
    subst s1 s2. by rewrite Hf1, Hf2.
  - destruct (final_summary folder opts loads sched1 Hne)
      as (_ & _ & Hi1 & Hm1 & Hf1 & _ & Ha1).
    destruct (final_summary folder opts loads sched2 Hne)
      as (_ & _ & Hi2 & Hm2 & Hf2 & _ & Ha2).
    unfold indices. fold s1 in Hi1, Hm1, Hf1, Ha1.
    fold s2 in Hi2, Hm2, Hf2, Ha2.
    by rewrite Hi1, Hm1, Hf1, Ha1, Hi2, Hm2, Hf2, Ha2.
Qed.

End More.


(** X4: the order in which the loads settle decides only which suffix is
    kept for an index.  The indices of the result, the requests and the
    final [idx] and [consecutiveMisses] are the same for every order; the
    suffix kept is not: when several suffixes of an index load, two orders
    can give two results. *)
Theorem probe_order_decides_suffix_only folder opts loads sched1 sched2 :
  let s1 := final folder opts loads sched1 in
  let s2 := final folder opts loads sched2 in
  (indices (found s1) = indices (found s2) /\
   attempts s1 = attempts s2 /\
   idx s1 = idx s2 /\ consecutiveMisses s1 = consecutiveMisses s2) /\
  exists loads' first_first last_first,
    probeImagesInFolder folder no_options loads' first_first
    <> probeImagesInFolder folder no_options loads' last_first.
Proof.
  split; [apply order_independent|].
  exists (fun p => p_idx p =? 1), (fun _ => O), (fun _ => 3%nat).
  vm_compute. discriminate.
Qed.


End ProbeMore.

(** ** More on the card *)

Module CarouselMore.
Import Catalog Carousel CarouselFacts Views.

Lemma card_ext c c' :
  c_name c = c_name c' -> images c = images c' -> idx c = idx c' ->
  interval c = interval c' -> isPaused c = isPaused c' ->
  thumb_src c = thumb_src c' -> thumb_alt c = thumb_alt c' ->
  prev_display c = prev_display c' -> next_display c = next_display c' ->
  hint c = hint c' -> intervals_set c = intervals_set c' -> c = c'.
Proof. destruct c, c'; cbn; intros; by subst. Qed.

Lemma alt_or_name im nm :
  Probe.alt im = nm ->
  (if String.eqb (Probe.alt im) "" then nm else Probe.alt im) = nm.
Proof. intros <-. by destruct (String.eqb_spec (Probe.alt im) ""). Qed.

Lemma moved_fields k c :
  c_name (moved k c) = c_name c /\ images (moved k c) = images c /\
  interval (moved k c) = interval c /\ isPaused (moved k c) = isPaused c /\
  prev_display (moved k c) = prev_display c /\
  next_display (moved k c) = next_display c /\
  hint (moved k c) = hint c /\ intervals_set (moved k c) = intervals_set c.
Proof. unfold moved. by destruct (images c !! Z.to_nat k). Qed.

Lemma moved_at k c :
  0 <= k < Z.of_nat (length (images c)) ->
  exists im, images c !! Z.to_nat k = Some im /\
    moved k c =
    set_thumb (Probe.render (Probe.file im)) (c_name c) (set_idx k c).
Proof.
  intros Hk. unfold moved.
  destruct (images c !! Z.to_nat k) as [im|] eqn:E; [by exists im|].
  apply lookup_ge_None in E. lia.
Qed.

Lemma moved_moved j k c :
  0 <= k < Z.of_nat (length (images c)) -> moved k (moved j c) = moved k c.
Proof.
  intros Hk. destruct (moved_fields j c) as (Hn & Hi & _).
  destruct (moved_at k c Hk) as (im & Him & ->).
  destruct (moved_at k (moved j c)) as (im' & Him' & ->);
    [by rewrite Hi|].
  rewrite Hi, Him in Him'. injection Him' as <-. rewrite Hn.
  unfold moved. destruct (images c !! Z.to_nat j); by destruct c.
Qed.

Lemma moved_self n c : sound n c -> moved (idx c) c = c.
Proof.
  intros (_ & (im & Him & Hsrc & Halt & _) & _). unfold moved. rewrite Him.
  destruct c; cbn in *. by subst.
Qed.

Lemma moved_sound n k c :
  sound n c -> 0 <= k < Z.of_nat n -> sound n (moved k c).
Proof.
  intros ((Hl & Hx & H1 & H2) & (im0 & _ & _ & _ & Hh) & Hnm) Hk.
  destruct (moved_at k c) as (im & Him & ->); [by rewrite Hl|].
  split; [|split].
  - split; [done|]. split; [done|]. split; [exact H1|exact H2].
  - by exists im.
  - done.
Qed.


Lemma showImage_general i c :
  let n := Z.of_nat (length (images c)) in
  images c <> [] -> - n <= i -> named c ->
  showImage i c =
  Normal (set_buttons (if 1 <? n then "" else "none")
            (moved ((i + n) mod n) c)).
Proof.
  intros n Hne Hi Hnm.
  assert (Hn : 0 < n).
  { subst n. destruct (images c); [done|]. cbn [length]. lia. }
  pose proof (Z.mod_pos_bound (i + n) n Hn) as Hb.
  destruct (moved_at ((i + n) mod n) c Hb) as (im & Him & ->).
  unfold showImage. fold n.
  destruct (Z.eqb_spec n 0) as [|_]; [lia|].
  assert (Hrem : Js.rem (i + n) n = (i + n) mod n).
  { unfold Js.rem. apply Z.rem_mod_nonneg; lia. }
  unfold Js.index. cbn [idx set_idx images]. rewrite Hrem.
  destruct (Z.ltb_spec ((i + n) mod n) 0) as [|_]; [lia|].
  rewrite Him. cbn [c_name set_idx].
  rewrite alt_or_name.
  - by destruct (1 <? n).
  - eapply Forall_lookup_1 in Hnm; eauto.
Qed.

Lemma showImage_moved n i c :
  sound n c -> (1 <= n)%nat -> - Z.of_nat n <= i ->
  showImage i c = Normal (moved ((i + Z.of_nat n) mod Z.of_nat n) c).
Proof.
  intros Hs Hn Hi. pose proof Hs as ((Hl & Hx & H1 & H2) & _ & Hnm).
  assert (Hne : images c <> []).
  { intros E. rewrite E in Hl. cbn in Hl. lia. }
  rewrite showImage_general by (rewrite ?Hl; done). rewrite Hl.
  f_equal. set (k := (i + Z.of_nat n) mod Z.of_nat n).
  destruct (moved_fields k c) as (_ & _ & _ & _ & Hp & Hnx & _).
  assert (Hv : prev_display c = (if 1 <? Z.of_nat n then "" else "none") /\
               next_display c = (if 1 <? Z.of_nat n then "" else "none")).
  { destruct (Z.ltb_spec 1 (Z.of_nat n)).
    - destruct H2 as (_ & _ & ? & ?); [lia|done].
    - destruct H1 as (_ & _ & ? & ?); [lia|done]. }
  destruct Hv as (Hv1 & Hv2). rewrite <- Hv1 at 1.
  apply card_ext; cbn; try done. congruence.
Qed.

Lemma set_isPaused_sound n b c : sound n c -> sound n (set_isPaused b c).
Proof. by intros (? & ? & ?). Qed.

Lemma set_isPaused_bare b c : bare c -> bare (set_isPaused b c).
Proof. by intros ?. Qed.

Lemma set_isPaused_twice b b' c :
  set_isPaused b' (set_isPaused b c) = set_isPaused b' c.
Proof. done. Qed.

Lemma set_isPaused_same c : set_isPaused (isPaused c) c = c.
Proof. by destruct c. Qed.

Lemma onClick_toggle c :
  bare c \/ (exists n, (1 <= n)%nat /\ active n c) ->
  onClick c = set_isPaused (negb (isPaused c)) c.
Proof.
  intros Hc. unfold onClick.
  destruct (negb (isPaused (set_isPaused _ c)) && _) eqn:Hcond; [|done].
  apply andb_true_iff in Hcond as (_ & Hint). cbn in Hint.
  apply negb_true_iff, bool_decide_eq_false in Hint.
  assert (Hnone : interval c = None).
  { destruct (interval c); [|done]. by destruct Hint. }
  apply startAuto_idle; [done|]. cbn.
  destruct Hc as [(-> & _)|(n & Hn & Hl & _ & _ & H2)]; [cbn; lia|].
  rewrite Hl. destruct (decide (n = 1%nat)) as [->|]; [lia|].
  destruct H2 as (Hsome & _); [lia|]. congruence.
Qed.

Lemma dispatch_sound n e c :
  (1 <= n)%nat -> sound n c -> sound n (dispatch e c).
Proof.
  intros Hn Hs. pose proof Hs as ((Hl & Hx & _) & _).
  apply dispatch_cases.
  - rewrite (showImage_moved n) by (done || lia).
    apply moved_sound; [done|]. apply Z.mod_pos_bound. lia.
  - rewrite (showImage_moved n) by (done || lia).
    apply moved_sound; [done|]. apply Z.mod_pos_bound. lia.
  - intros b. by apply set_isPaused_sound.
  - rewrite onClick_toggle; [by apply set_isPaused_sound|].
    right. exists n. split; [done|apply Hs].
  - intros _ _. rewrite Hl.
    pose proof (Z.rem_bound_pos (idx c + 1) (Z.of_nat n)) as Hb.
    unfold Js.rem.
    rewrite (showImage_moved n) by (done || lia).
    apply moved_sound; [done|]. apply Z.mod_pos_bound. lia.
  - done.
Qed.

Lemma run_sound n evs : forall c,
  (1 <= n)%nat -> sound n c -> sound n (run evs c).
Proof.
  induction evs as [|e evs IH]; intros c Hn Hc; [done|].
  by apply IH, dispatch_sound.
Qed.

Lemma dispatch_name e c : c_name (dispatch e c) = c_name c.
Proof.
  apply dispatch_cases; try done; try apply showImage_frame.
  - unfold onClick, startAuto, stopAuto. cbn.
    destruct (_ && _); [|done].
    destruct (interval c); cbn; by destruct (_ <=? 1).
  - intros _ _. apply showImage_frame.
Qed.

Lemma run_fixed evs : forall c,
  c_name (run evs c) = c_name c /\ images (run evs c) = images c.
Proof.
  induction evs as [|e evs IH]; intros c; [done|].
  change (run (e :: evs) c) with (run evs (dispatch e c)).
  destruct (IH (dispatch e c)) as (-> & ->).
  by rewrite dispatch_name, dispatch_images.
Qed.

Lemma dispatch_bare_form e c :
  bare c -> exists b, dispatch e c = set_isPaused b c.
Proof.
  intros Hb. pose proof Hb as (Hi & _).
  apply dispatch_cases.
  - rewrite (showImage_empty _ c Hi). exists (isPaused c).
    by rewrite set_isPaused_same.
  - rewrite (showImage_empty _ c Hi). exists (isPaused c).
    by rewrite set_isPaused_same.
  - intros b. by exists b.
  - rewrite onClick_toggle by auto. by eexists.
  - intros _ _. rewrite (showImage_empty _ c Hi). exists (isPaused c).
    by rewrite set_isPaused_same.
  - exists (isPaused c). by rewrite set_isPaused_same.
Qed.

Lemma run_bare_form evs : forall c,
  bare c -> exists b, run evs c = set_isPaused b c.
Proof.
  induction evs as [|e evs IH]; intros c Hb.
  - exists (isPaused c). by rewrite set_isPaused_same.
  - change (run (e :: evs) c) with (run evs (dispatch e c)).
    destruct (dispatch_bare_form e c Hb) as (b & ->).
    destruct (IH (set_isPaused b c)) as (b' & Hr);
      [by apply set_isPaused_bare|].
    exists b'. exact Hr.
Qed.

Lemma onProbeComplete_sound found c :
  bare c -> found <> [] ->
  let c' := state_of (onProbeComplete found c) in
  sound (length found) c' /\ c_name c' = c_name c /\
  images c' = images_of (c_name c) found /\
  exists c'', onProbeComplete found c = Normal c''.
Proof.
  intros Hb Hne c'.
  pose proof (onProbeComplete_active found c Hb Hne) as Ha. fold c' in Ha.
  subst c'. revert Ha. unfold onProbeComplete.
  assert (Hlen : (0 < length found)%nat).
  { destruct found; [done|]. cbn. lia. }
  destruct (Z.ltb_spec 0 (Z.of_nat (length found))) as [_|]; [|lia].
  set (c2 := set_hint _ _).
  assert (Himg : images c2 = images_of (c_name c) found) by done.
  assert (Hl2 : length (images c2) = length found).
  { rewrite Himg. unfold images_of. by rewrite length_map. }
  assert (Hne2 : images c2 <> []).
  { intros E. rewrite E in Hl2. cbn in Hl2. lia. }
  assert (Hnm2 : named c2).
  { unfold named. rewrite Himg. unfold images_of. apply Forall_forall.
    intros im Him. apply list_elem_of_In, in_map_iff in Him as (f & <- & _).
    done. }
  rewrite (showImage_general 0 c2 Hne2) by (done || lia).
  cbn [bind state_of]. rewrite Hl2.
  set (k := (0 + Z.of_nat (length found)) mod Z.of_nat (length found)).
  assert (Hk : 0 <= k < Z.of_nat (length (images c2))).
  { rewrite Hl2. apply Z.mod_pos_bound. lia. }
  destruct (moved_at k c2 Hk) as (im & Him & ->).
  set (c3 := set_buttons _ _). intros Ha.
  assert (Hst : forall x, thumb_src (startAuto x) = thumb_src x /\
                  thumb_alt (startAuto x) = thumb_alt x /\
                  hint (startAuto x) = hint x /\
                  c_name (startAuto x) = c_name x).
  { intros x. unfold startAuto, stopAuto.
    destruct (interval x); cbn; by destruct (_ <=? 1). }
  destruct (Hst c3) as (Hsrc & Halt & Hhint & Hname).
  destruct (startAuto_fields c3) as (Hi3 & Hx3 & _).
  split; [|split; [|split]].
  - split; [exact Ha|]. split.
    + exists im. rewrite Hi3, Hx3, Hsrc, Halt, Hhint, Hname. by subst c3.
    + unfold named. rewrite Hi3, Hname. exact Hnm2.
  - by rewrite Hname.
  - by rewrite Hi3.
  - by eexists.
Qed.

Lemma life_pre p pre :
  exists b, run pre (createProductCard p) = set_isPaused b (createProductCard p).
Proof. apply run_bare_form, createProductCard_bare. Qed.

Lemma life_sound p pre found post :
  found <> [] ->
  let c := life p pre found post in
  sound (length found) c /\ c_name c = name p /\
  images c = images_of (name p) found.
Proof.
  intros Hne c. subst c. unfold life.
  set (c0 := run pre (createProductCard p)).
  assert (Hb : bare c0) by apply run_bare, createProductCard_bare.
  assert (Hn0 : c_name c0 = name p) by apply run_fixed.
  destruct (onProbeComplete_sound found c0 Hb Hne) as (Hs & Hn & Hi & _).
  destruct (run_fixed post (state_of (onProbeComplete found c0))) as (-> & ->).
  split; [|by rewrite Hn, Hi, Hn0].
  apply run_sound; [|done]. destruct found; [done|]. cbn. lia.
Qed.

Lemma life_none p pre post :
  exists b, life p pre [] post = without_images p b.
Proof.
  unfold life. destruct (life_pre p pre) as (b0 & ->).
  set (c1 := state_of _).
  assert (Hb : bare c1) by done.
  destruct (run_bare_form post c1 Hb) as (b & ->).
  by exists b.
Qed.

Lemma occurs_cases c :
  occurs c -> bare c \/ exists n, (1 <= n)%nat /\ sound n c.
Proof.
  intros [(p & pre & ->)|(p & pre & found & post & ->)].
  - left. apply run_bare, createProductCard_bare.
  - destruct found as [|f found].
    + left. destruct (life_none p pre post) as (b & ->). done.
    + right. exists (length (f :: found)). split; [cbn; lia|].
      by apply life_sound.
Qed.


Lemma handle_normal c :
  (exists c', showImage (idx c - 1) c = Normal c') ->
  (exists c', showImage (idx c + 1) c = Normal c') ->
  (exists c', showImage (Js.rem (idx c + 1) (Z.of_nat (length (images c)))) c
              = Normal c') ->
  forall e, exists c', handle e c = Normal c'.
Proof.
  intros (cp & Hp) (cn & Hn) (ct & Ht) e. destruct e; cbn [handle]; eauto.
  - unfold onKeyDown.
    destruct (String.eqb_spec key "ArrowRight") as [->|_].
    + rewrite Hn. cbn. eauto.
    + cbn [bind]. destruct (String.eqb key "ArrowLeft").
      * rewrite Hp. cbn. eauto.
      * cbn. eauto.
  - destruct (interval c); [|eauto]. unfold tick.
    destruct (negb _); eauto.
Qed.

Lemma next_run n k : forall c,
  (1 <= n)%nat -> sound n c ->
  run (replicate k NextClick) c
  = moved ((idx c + Z.of_nat k) mod Z.of_nat n) c.
Proof.
  induction k as [|k IH]; intros c Hn Hs.
  - pose proof Hs as ((_ & Hx & _) & _). cbn [replicate run foldl].
    rewrite Z.add_0_r, Z.mod_small by lia. symmetry. by apply (moved_self n).
  - change (run (replicate (S k) NextClick) c)
      with (run (replicate k NextClick) (dispatch NextClick c)).
    pose proof Hs as ((Hl & Hx & _) & _).
    unfold dispatch. cbn [handle].
    rewrite (showImage_moved n) by (done || lia). cbn [state_of].
    set (j := (idx c + 1 + Z.of_nat n) mod Z.of_nat n).
    assert (Hj : 0 <= j < Z.of_nat n) by (apply Z.mod_pos_bound; lia).
    rewrite IH by (done || by apply moved_sound).
    destruct (moved_at j c) as (im & _ & Hm); [by rewrite Hl|].
    assert (Hidx : idx (moved j c) = j) by (by rewrite Hm).
    rewrite Hidx, moved_moved
      by (rewrite Hl; apply Z.mod_pos_bound; lia).
    f_equal. subst j.
    rewrite Z.add_mod_idemp_l by lia.
    replace (idx c + 1 + Z.of_nat n + Z.of_nat k)
      with (idx c + Z.of_nat (S k) + 1 * Z.of_nat n) by lia.
    by rewrite Z_mod_plus_full.
Qed.

(** X5: after a probe that found images, the card always shows the image
    at its index: the thumbnail is that image's file, the alt text is the
    product's name, the hint is empty; and its images are the files found,
    in order, all with the product's name. *)
Theorem card_shows_current_image p pre found post :
  found <> [] ->
  let c := life p pre found post in
  showing c /\ named c /\
  images c = images_of (name p) found /\ c_name c = name p.
Proof.
  intros Hne c. destruct (life_sound p pre found post Hne)
    as ((_ & Hsh & Hnm) & Hn & Hi).
  done.
Qed.

Lemma card_shows_current_image_witness :
  let c := life Sample.cot [Click] [Sample.image 1; Sample.image 2]
             [NextClick; Tick] in
  showing c /\ named c /\
  images c = images_of "Cot" [Sample.image 1; Sample.image 2] /\
  c_name c = "Cot"%string.
Proof.
  apply (card_shows_current_image Sample.cot [Click]
           [Sample.image 1; Sample.image 2] [NextClick; Tick]).
  discriminate.
Defined.

(** X6: in no state that can occur does a listener or the interval's
    callback throw: [images[idx]] is always an image; nor does the end of
    the probe. *)
Theorem listeners_never_throw c :
  occurs c ->
  (forall e, exists c', handle e c = Normal c') /\
  (bare c -> forall found, exists c', onProbeComplete found c = Normal c').
Proof.
  intros Hc. split.
  - destruct (occurs_cases c Hc) as [(He & _)|(n & Hn & Hs)].
    + apply handle_normal; rewrite showImage_empty by done; eauto.
    + pose proof Hs as ((Hl & Hx & _) & _).
      apply handle_normal; rewrite ?Hl.
      * rewrite (showImage_moved n) by (done || lia). eauto.
      * rewrite (showImage_moved n) by (done || lia). eauto.
      * pose proof (Z.rem_bound_pos (idx c + 1) (Z.of_nat n)) as Hb.
        unfold Js.rem.
        rewrite (showImage_moved n) by (done || lia). eauto.
  - intros Hb found. destruct found as [|f found]; [by eexists|].
    by destruct (onProbeComplete_sound (f :: found) c Hb) as (_ & _ & _ & H).
Qed.

Lemma listeners_never_throw_witness :
  exists c', handle (KeyDown "ArrowLeft") Sample.three_images = Normal c'.
Proof.
  apply (listeners_never_throw Sample.three_images).
  right. by exists Sample.cot, [], [Sample.image 1; Sample.image 2; Sample.image 3], [].
Defined.

(** X7: a card whose probe found nothing shows the no-image placeholder
    and the hint for good: whatever the events before and after, only its
    pause flag can differ; it has no interval and its buttons are hidden. *)
Theorem card_without_images p pre post :
  exists b, life p pre [] post = without_images p b.
Proof. apply life_none. Qed.

(** X8: the interval is set exactly for cards of two images or more: it
    is set once, when the probe ends, and never cleared or set again,
    whatever the events; a card of fewer images never has one. *)
Theorem interval_iff_several_images p pre found post :
  let c := life p pre found post in
  interval (run pre (createProductCard p)) = None /\
  interval c = (if (2 <=? length found)%nat then Some 1%nat else None) /\
  intervals_set c = (if (2 <=? length found)%nat then 1%nat else O).
Proof.
  intros c. split.
  { by destruct (run_bare pre _ (createProductCard_bare p)) as (_ & _ & ? & _). }
  destruct found as [|f found].
  - subst c. destruct (life_none p pre post) as (b & ->). done.
  - destruct (life_sound p pre (f :: found) post) as (((_ & _ & H1 & H2) & _) & _);
      [done|].
    fold c in H1, H2.
    destruct (Nat.leb_spec 2 (length (f :: found))) as [Hle|Hlt].
    + by destruct H2 as (? & ? & _).
    + destruct H1 as (? & ? & _); [cbn in *; lia|done].
Qed.

(** X9: next and previous undo each other and go round: in a card with
    images, each moves the shown image one place, around the ends; one
    after the other gives back the same card; as many next clicks as there
    are images too; and the arrow keys do what the buttons do. *)
Theorem navigation_round_trip p pre found post :
  found <> [] ->
  let c := life p pre found post in
  let n := Z.of_nat (length found) in
  dispatch NextClick c = moved ((idx c + 1) mod n) c /\
  dispatch PrevClick c = moved ((idx c - 1) mod n) c /\
  dispatch PrevClick (dispatch NextClick c) = c /\
  dispatch NextClick (dispatch PrevClick c) = c /\
  run (replicate (length found) NextClick) c = c /\
  dispatch (KeyDown "ArrowRight") c = dispatch NextClick c /\
  dispatch (KeyDown "ArrowLeft") c = dispatch PrevClick c.
Proof.
  intros Hne c n.
  destruct (life_sound p pre found post Hne) as (Hs & _). fold c in Hs.
  assert (Hn : (1 <= length found)%nat).
  { destruct found; [done|]. cbn. lia. }
  pose proof Hs as ((Hl & Hx & _) & _).
  assert (Hnext : forall d, sound (length found) d ->
            dispatch NextClick d = moved ((idx d + 1) mod n) d).
  { intros d Hd. unfold dispatch. cbn [handle].
    rewrite (showImage_moved (length found)) by (done || destruct Hd as ((_ & ? & _) & _); lia).
    cbn [state_of]. f_equal. fold n.
    rewrite <- (Z.mul_1_l n) at 1. apply Z_mod_plus_full. }
  assert (Hprev : forall d, sound (length found) d ->
            dispatch PrevClick d = moved ((idx d - 1) mod n) d).
  { intros d Hd. unfold dispatch. cbn [handle].
    rewrite (showImage_moved (length found)) by (done || destruct Hd as ((_ & ? & _) & _); lia).
    cbn [state_of]. f_equal. fold n.
    rewrite <- (Z.mul_1_l n) at 1. apply Z_mod_plus_full. }
  assert (Hidx : forall k, 0 <= k < n -> idx (moved k c) = k).
  { intros k Hk. destruct (moved_at k c) as (im & _ & ->); [by rewrite Hl|done]. }
  assert (Hb1 : 0 <= (idx c + 1) mod n < n) by (apply Z.mod_pos_bound; lia).
  assert (Hb2 : 0 <= (idx c - 1) mod n < n) by (apply Z.mod_pos_bound; lia).
  split; [by apply Hnext|]. split; [by apply Hprev|]. split; [|split; [|split]].
  - rewrite (Hnext c Hs), Hprev by (by apply moved_sound).
    rewrite Hidx by done.
    rewrite moved_moved by (rewrite Hl; apply Z.mod_pos_bound; lia).
    rewrite Zminus_mod_idemp_l.
    replace (idx c + 1 - 1) with (idx c) by lia.
    rewrite Z.mod_small by lia. by apply (moved_self (length found)).
  - rewrite (Hprev c Hs), Hnext by (by apply moved_sound).
    rewrite Hidx by done.
    rewrite moved_moved by (rewrite Hl; apply Z.mod_pos_bound; lia).
    rewrite Zplus_mod_idemp_l.
    replace (idx c - 1 + 1) with (idx c) by lia.
    rewrite Z.mod_small by lia. by apply (moved_self (length found)).
  - rewrite (next_run (length found)) by done.
    rewrite <- (Z.mul_1_l (Z.of_nat (length found))) at 1.
    rewrite Z_mod_plus_full, Z.mod_small by lia.
    by apply (moved_self (length found)).
  - split; unfold dispatch; cbn [handle]; unfold onKeyDown; cbn.
    + by destruct (showImage (idx c + 1) c).
    + by destruct (showImage (idx c - 1) c).
Qed.

Lemma navigation_round_trip_witness :
  dispatch PrevClick (dispatch NextClick Sample.three_images)
  = Sample.three_images.
Proof.
  apply (navigation_round_trip Sample.cot []
           [Sample.image 1; Sample.image 2; Sample.image 3] []).
  discriminate.
Defined.

(** X10: pausing is a gate, not a stop.  In a state that can occur, a
    click on the card only flips the pause flag, and so do a second click
    and a second space key give back the same card; while the flag is set,
    the interval's callback changes nothing. *)
Theorem pause_is_a_gate c :
  occurs c ->
  dispatch Click c = set_isPaused (negb (isPaused c)) c /\
  dispatch Click (dispatch Click c) = c /\
  dispatch (KeyDown " ") (dispatch (KeyDown " ") c) = c /\
  (isPaused c = true -> forall k, run (replicate k Tick) c = c).
Proof.
  intros Hc.
  assert (Hshape : bare c \/ exists n, (1 <= n)%nat /\ active n c).
  { destruct (occurs_cases c Hc) as [?|(n & ? & ? & _)]; eauto. }
  assert (Hclick : onClick c = set_isPaused (negb (isPaused c)) c)
    by (by apply onClick_toggle).
  split; [exact Hclick|]. split; [|split].
  - unfold dispatch. cbn [handle state_of]. rewrite Hclick.
    rewrite onClick_toggle.
    + cbn [isPaused set_isPaused]. rewrite negb_involutive.
      rewrite set_isPaused_twice. apply set_isPaused_same.
    + destruct Hshape as [?|(n & ? & ?)]; [by left|right].
      exists n. split; [done|]. done.
  - unfold dispatch. cbn. rewrite negb_involutive. by destruct c.
  - intros Hp k. induction k as [|k IH]; [done|].
    change (run (replicate (S k) Tick) c)
      with (run (replicate k Tick) (dispatch Tick c)).
    assert (Ht : dispatch Tick c = c).
    { unfold dispatch. cbn [handle]. destruct (interval c); [|done].
      unfold tick. by rewrite Hp. }
    by rewrite Ht.
Qed.

Lemma pause_is_a_gate_witness :
  dispatch Click (dispatch Click Sample.three_images) = Sample.three_images.
Proof.
  apply (pause_is_a_gate Sample.three_images).
  right. by exists Sample.cot, [], [Sample.image 1; Sample.image 2; Sample.image 3], [].
Defined.

(** X11: from the folder to the card.  When the product's folder holds
    images numbered 1..k ([1 <= k <= 20]) and no others, then for every
    order of the loads and whatever the events the card has exactly these
    [k] images, in order, and shows the one at its index. *)
Theorem card_of_numbered_folder p loads sched pre post k :
  1 <= k <= 20 ->
  numbered (folder p) card_options loads k ->
  exists c,
    card_life p loads sched pre post = Some c /\
    indices (images c) = seqZ 1 k /\
    sound (Z.to_nat k) c /\ c_name c = name p.
Proof.
  intros Hk Hnum.
  destruct (ProbeMore.numbered_result (folder p) card_options loads sched k)
    as (r & Hr & Hidx); [cbn; lia|cbn; lia|done|].
  assert (Hlen : length r = Z.to_nat k).
  { apply (f_equal length) in Hidx. unfold indices in Hidx.
    by rewrite length_map, length_seqZ in Hidx. }
  assert (Hne : r <> []).
  { intros ->. cbn in Hlen. lia. }
  unfold card_life. rewrite Hr. eexists. split; [reflexivity|].
  destruct (life_sound p pre r post Hne) as (Hs & Hn & Hi).
  rewrite Hlen in Hs. split; [|done].
  rewrite Hi, <- Hidx. unfold indices, images_of. rewrite map_map. done.
Qed.

Lemma card_of_numbered_folder_witness :
  exists c,
    card_life Sample.cot Sample.two_files Sample.by_turns [] [NextClick]
    = Some c /\
    indices (images c) = seqZ 1 2 /\
    sound (Z.to_nat 2) c /\ c_name c = name Sample.cot.
Proof.
  apply (card_of_numbered_folder Sample.cot Sample.two_files Sample.by_turns
           [] [NextClick] 2); [lia|].
  split.
  - intros i Hi. destruct (Z.eq_dec i 1) as [->|Hne].
    + exists "jpg". split; [|reflexivity]. cbn. repeat constructor.
    + assert (i = 2) as -> by lia.
      exists "png". split; [|reflexivity]. cbn. repeat constructor.
  - intros i sfx Hi. unfold Sample.two_files. cbn.
    destruct (Z.eqb_spec i 1); [lia|]. destruct (Z.eqb_spec i 2); [lia|].
    reflexivity.
Defined.

(** X12: when no image of the product's folder loads, then for every order
    of the loads and whatever the events the card is the card without
    images. *)
Theorem card_of_empty_folder p loads sched pre post :
  (forall i sfx, loads (Probe.mkPath (folder p) i sfx) = false) ->
  exists b, card_life p loads sched pre post = Some (without_images p b).
Proof.
  intros Hfail. unfold card_life.
  rewrite (ProbeMore.empty_result (folder p) card_options loads sched Hfail).
  destruct (life_none p pre post) as (b & ->). by exists b.
Qed.

Lemma card_of_empty_folder_witness :
  exists b,
    card_life Sample.cot Sample.no_files Sample.by_turns [Click] [Tick]
    = Some (without_images Sample.cot b).
Proof.
  apply (card_of_empty_folder Sample.cot Sample.no_files Sample.by_turns
           [Click] [Tick]).
  reflexivity.
Defined.

End CarouselMore.

(** ** More on the grid *)

Module GridMore.
Import Catalog Carousel Grid.

(** X13: when the request succeeds with a non-empty array, the embedded
    list is not used: the container gets one card per product of the
    array, in its order, each with its product's name and still loading. *)
Theorem remote_products_rendered old status l :
  ok status = true -> l <> [] ->
  exists cards,
    loadProducts (Some old) (Response status (Some (JArray l)))
      = Some (Cards cards) /\
    cards = map createProductCard l /\
    map c_name cards = map name l /\
    Forall bare cards.
Proof.
  intros Hok Hne. exists (map createProductCard l).
  unfold loadProducts, safeFetchJson. rewrite Hok.
  destruct l as [|p ps]; [done|].
  split; [done|]. split; [done|]. split.
  - by rewrite map_map.
  - apply Forall_forall. intros c Hc.
    apply list_elem_of_In, in_map_iff in Hc as (q & <- & _).
    by repeat split.
Qed.

Lemma remote_products_rendered_witness :
  exists cards,
    loadProducts (Some (Html "")) (Response 200 (Some (JArray [Sample.cot])))
      = Some (Cards cards) /\
    cards = map createProductCard [Sample.cot] /\
    map c_name cards = map name [Sample.cot] /\
    Forall bare cards.
Proof.
  apply (remote_products_rendered (Html "") 200 [Sample.cot]);
    [reflexivity|discriminate].
Defined.

(** X14: an empty catalog is not replaced by the embedded one.  For a
    response with a status of 200..299, a body [null] gives the cards of
    the embedded list, but a body that is an empty array, or an object
    without a [length], gives the notice and no card; and without a
    container nothing is done. *)
Theorem empty_catalog_notice old status o :
  ok status = true ->
  loadProducts (Some old) (Response status (Some (JArray [])))
    = Some (Html "<p>Unable to load products.</p>") /\
  loadProducts (Some old) (Response status (Some JObject))
    = Some (Html "<p>Unable to load products.</p>") /\
  loadProducts (Some old) (Response status (Some JNull))
    = Some (Cards (map createProductCard EMBEDDED_PRODUCTS)) /\
  loadProducts None o = None.
Proof.
  intros Hok. unfold loadProducts, safeFetchJson. by rewrite Hok.
Qed.

Lemma empty_catalog_notice_witness :
  loadProducts (Some (Html "")) (Response 200 (Some (JArray [])))
    = Some (Html "<p>Unable to load products.</p>") /\
  loadProducts (Some (Html "")) (Response 200 (Some JObject))
    = Some (Html "<p>Unable to load products.</p>") /\
  loadProducts (Some (Html "")) (Response 200 (Some JNull))
    = Some (Cards (map createProductCard EMBEDDED_PRODUCTS)) /\
  loadProducts None NetworkError = None.
Proof.
  apply (empty_catalog_notice (Html "") 200 NetworkError). reflexivity.
Defined.

End GridMore.

(** ** The counters *)

Module CountersFacts.
Import Counters.

Lemma stepOf_pos t : 1 <= stepOf t.
Proof. unfold stepOf. lia. Qed.

Lemma stepOf_enough t : t <= 399 * stepOf t.
Proof.
  unfold stepOf. pose proof (Z.mul_div_le t 200 ltac:(lia)) as H1.
  pose proof (Z.mod_pos_bound t 200 ltac:(lia)) as H2.
  pose proof (Z.div_mod t 200 ltac:(lia)) as H3. lia.
Qed.

Lemma timeouts_snoc n : forall c,
  timeouts (S n) c =
  let c' := timeouts n c in if pending c' then tick c' else c'.
Proof.
  induction n as [|n IH]; intros c; [done|].
  change (timeouts (S (S n)) c)
    with (if pending c then timeouts (S n) (tick c) else c).
  destruct (pending c) eqn:Hp.
  - rewrite IH. cbn [timeouts]. by rewrite Hp.
  - cbn [timeouts]. by rewrite Hp, Hp.
Qed.

Lemma tick_fields c :
  target (tick c) = target c /\ step (tick c) = step c.
Proof. unfold tick. by destruct (_ <=? _). Qed.

(** What a counter is after its first tick and [k] timeouts. *)
Lemma timeouts_closed attr k :
  let t := parseTarget attr in
  let c := timeouts k (start attr) in
  target c = t /\ step c = stepOf t /\
  innerText c = pretty (Z.min (Z.of_nat (S k) * stepOf t) t) /\
  pending c = (Z.of_nat (S k) * stepOf t <? t) /\
  (pending c = true -> current c = Z.of_nat (S k) * stepOf t).
Proof.
  intros t. pose proof (stepOf_pos t) as Hs.
  induction k as [|k IH].
  - cbn [timeouts]. unfold start, tick. fold t. cbn [target step current].
    rewrite Z.add_0_l, Z.mul_1_l.
    destruct (Z.leb_spec t (stepOf t)); cbn.
    + rewrite Z.min_r by lia. repeat split; try done.
      symmetry. apply Z.ltb_ge. lia.
    + rewrite Z.min_l by lia. repeat split; try done.
      symmetry. apply Z.ltb_lt. lia.
  - intros c. subst c. rewrite timeouts_snoc.
    set (c := timeouts k (start attr)) in *. cbn zeta.
    destruct IH as (Ht & Hst & Htxt & Hp & Hcur).
    destruct (pending c) eqn:Hpc.
    + specialize (Hcur eq_refl). symmetry in Hp. apply Z.ltb_lt in Hp.
      unfold tick. rewrite Ht, Hst, Hcur.
      replace (Z.of_nat (S k) * stepOf t + stepOf t)
        with (Z.of_nat (S (S k)) * stepOf t) by lia.
      destruct (Z.leb_spec t (Z.of_nat (S (S k)) * stepOf t)); cbn.
      * rewrite Z.min_r by lia. repeat split; try done.
        symmetry. apply Z.ltb_ge. lia.
      * rewrite Z.min_l by lia. repeat split; try done.
        symmetry. apply Z.ltb_lt. lia.
    + symmetry in Hp. apply Z.ltb_ge in Hp.
      rewrite Z.min_r in Htxt by lia.
      rewrite Z.min_r by lia. rewrite Hpc.
      repeat split; try done. symmetry. apply Z.ltb_ge. lia.
Qed.

(** X15: what a counter shows.  For a target on which the counter's
    numbers are exact (at most 2^52 either way): after its first tick and
    [k] timeouts the counter shows the smaller of [(k + 1) * step] and its
    target, with [step = max(1, floor(target / 200))]; it counts up in
    steps and stops on the target itself, never past it. *)
Theorem counter_shows attr k :
  let t := parseTarget attr in
  exact t ->
  let c := timeouts k (start attr) in
  innerText c = pretty (Z.min (Z.of_nat (S k) * stepOf t) t) /\
  pending c = (Z.of_nat (S k) * stepOf t <? t).
Proof.
  intros t _ c. by destruct (timeouts_closed attr k) as (_ & _ & ? & ? & _).
Qed.

Lemma counter_shows_witness :
  innerText (timeouts 3 (start (Some 1000))) = "20"%string /\
  pending (timeouts 3 (start (Some 1000))) = true /\
  innerText (timeouts 199 (start (Some 1000))) = "1000"%string /\
  pending (timeouts 199 (start (Some 1000))) = false.
Proof.
  assert (He : exact (parseTarget (Some 1000))) by (unfold exact; cbn; lia).
  destruct (counter_shows (Some 1000) 3 He) as (H1 & H2).
  destruct (counter_shows (Some 1000) 199 He) as (H3 & H4).
  split; [eapply eq_trans; [apply H1 | vm_compute; reflexivity]|].
  split; [eapply eq_trans; [apply H2 | vm_compute; reflexivity]|].
  split; [eapply eq_trans; [apply H3 | vm_compute; reflexivity]|].
  eapply eq_trans; [apply H4 | vm_compute; reflexivity].
Defined.

(** X16: every counter finishes.  For every target on which the counter's
    numbers are exact (at most 2^52 either way; none, zero and negative
    ones too): after the first tick and at most 398 timeouts no timeout is
    pending and the text is the target; for a target of at most zero the
    first tick already shows it. *)
Theorem counter_finishes attr :
  let t := parseTarget attr in
  exact t ->
  let c := timeouts 398 (start attr) in
  pending c = false /\ innerText c = pretty t /\
  (forall n, timeouts n c = c) /\
  (t <= 0 -> start attr = timeouts 398 (start attr)).
Proof.
  intros t _ c. pose proof (stepOf_enough t) as He.
  pose proof (stepOf_pos t) as Hs.
  destruct (timeouts_closed attr 398) as (_ & _ & Htxt & Hp & _).
  fold t c in Htxt, Hp.
  change (Z.of_nat 399) with 399 in Htxt, Hp.
  assert (Hpc : pending c = false).
  { rewrite Hp. apply Z.ltb_ge. lia. }
  split; [done|]. split; [by rewrite Htxt, Z.min_r by lia|]. split.
  - intros n. destruct n; [done|]. cbn [timeouts]. by rewrite Hpc.
  - intros Ht. subst c.
    destruct (timeouts_closed attr 0) as (_ & _ & _ & Hp0 & _).
    fold t in Hp0. cbn [timeouts] in Hp0.
    assert (Hs0 : pending (start attr) = false).
    { rewrite Hp0. apply Z.ltb_ge. lia. }
    cbn [timeouts]. by rewrite Hs0.
Qed.

Lemma counter_finishes_witness :
  start (Some (-5)) = timeouts 398 (start (Some (-5))) /\
  innerText (start (Some (-5))) = "-5"%string /\
  innerText (timeouts 398 (start (Some 399))) = "399"%string /\
  pending (timeouts 397 (start (Some 399))) = true.
Proof.
  assert (E1 : exact (parseTarget (Some (-5)))) by (unfold exact; cbn; lia).
  assert (E2 : exact (parseTarget (Some 399))) by (unfold exact; cbn; lia).
  destruct (counter_finishes (Some (-5)) E1) as (_ & _ & _ & H4).
  destruct (counter_finishes (Some 399) E2) as (_ & H5 & _).
  assert (H : start (Some (-5)) = timeouts 398 (start (Some (-5))))
    by (apply H4; cbn; lia).
  split; [exact H|].
  split; [vm_compute; reflexivity|].
  split; [eapply eq_trans; [apply H5 | vm_compute; reflexivity]|].
  vm_compute; reflexivity.
Defined.

Lemma scrolls_started evs : forall p,
  countersStarted p = true -> scrolls evs p = p.
Proof.
  induction evs as [|e evs IH]; intros p Hp; [done|].
  change (scrolls (e :: evs) p) with (scrolls evs (onScroll e p)).
  assert (E : onScroll e p = p).
  { unfold onScroll. destruct e; [|done]. by rewrite Hp. }
  rewrite E. by apply IH.
Qed.

(** X17: the counters are started once at most: over any scrolling,
    [runCounters] runs at the first scroll event that finds the [stats]
    element near enough, and never again; without such an event it does
    not run. *)
Theorem counters_start_once evs :
  let p := scrolls evs loaded in
  countersStarted p = existsb (fun e => bool_decide (e = Some true)) evs /\
  runs p = (if countersStarted p then 1%nat else O).
Proof.
  assert (H : forall p, countersStarted p = false -> runs p = O ->
            countersStarted (scrolls evs p)
              = existsb (fun e => bool_decide (e = Some true)) evs /\
            runs (scrolls evs p)
              = (if countersStarted (scrolls evs p) then 1%nat else O)).
  { induction evs as [|e evs IH]; intros p Hp Hr.
    - cbn. by rewrite Hp, Hr.
    - change (scrolls (e :: evs) p) with (scrolls evs (onScroll e p)).
      cbn [existsb]. unfold onScroll. rewrite Hp.
      destruct e as [[|]|]; cbn [bool_decide orb].
      + rewrite scrolls_started by done. cbn. by rewrite Hr.
      + by apply IH.
      + by apply IH. }
  by apply H.
Qed.

End CountersFacts.

(** ** The theme *)

Module ThemeFacts.
Import Theme.

Lemma click_agrees p t :
  themeToggle p = Some t ->
  let q := click p in
  dark q = negb (dark p) /\
  stored q = Some (if dark q then "dark" else "light") /\
  themeToggle q = Some (if dark q then sun else moon).
Proof. unfold click. intros ->. by destruct (dark p). Qed.

Lemma clicks_agree n p t :
  themeToggle p = Some t ->
  let q := clicks (S n) p in
  stored q = Some (if dark q then "dark" else "light") /\
  themeToggle q = Some (if dark q then sun else moon).
Proof.
  intros Ht. induction n as [|n IH].
  - by destruct (click_agrees p t Ht) as (_ & H2 & H3).
  - cbn zeta in *. destruct IH as (H2 & H3).
    change (clicks (S (S n)) p) with (click (clicks (S n) p)).
    by destruct (click_agrees (clicks (S n) p) _ H3) as (_ & K2 & K3).
Qed.

(** X18: the theme survives a reload.  After at least one click the stored
    theme and the button's text say what the body shows; and on a page
    whose markup is not dark, the next load of the page, with the storage
    as any visit left it, shows the same theme. *)
Theorem theme_survives_reload text storage n :
  let p := visit false text storage n in
  ((1 <= n)%nat ->
   stored p = Some (if dark p then "dark" else "light") /\
   themeToggle p = Some (if dark p then sun else moon)) /\
  dark (visit false text (stored p) 0) = dark p.
Proof.
  intros p.
  assert (Hload : exists t, themeToggle
            (load {| dark := false; stored := storage;
                     themeToggle := Some text |}) = Some t).
  { unfold load. cbn. destruct (bool_decide _); by eexists. }
  destruct Hload as (t & Ht).
  destruct n as [|n].
  - split; [lia|].
    assert (Hst : stored p = storage).
    { subst p. unfold visit, clicks, load. cbn. by destruct (bool_decide _). }
    by rewrite Hst.
  - destruct (clicks_agree n _ t Ht) as (H2 & H3).
    fold (visit false text storage (S n)) in H2, H3. fold p in H2, H3.
    split; [done|]. rewrite H2. by destruct (dark p).
Qed.

Lemma theme_survives_reload_witness :
  let p := visit false "toggle" None 3 in
  stored p = Some (if dark p then "dark" else "light") /\
  themeToggle p = Some (if dark p then sun else moon).
Proof.
  apply (theme_survives_reload "toggle" None 3). lia.
Defined.

End ThemeFacts.

(** ** Escaping *)

Module HtmlFacts.
Import Html.

Lemma classify a :
  a = amp \/ a = quot \/ a = apos \/ a = lt \/ a = gt \/
  (a <> amp /\ a <> quot /\ a <> apos /\ a <> lt /\ a <> gt).
Proof.
  destruct (Ascii.eqb_spec a amp); [by auto|].
  destruct (Ascii.eqb_spec a quot); [by auto|].
  destruct (Ascii.eqb_spec a apos); [by auto|].
  destruct (Ascii.eqb_spec a lt); [by auto|].
  destruct (Ascii.eqb_spec a gt); [by auto 6|].
  do 5 right. done.
Qed.

Lemma eqb_ne a c : a <> c -> Ascii.eqb a c = false.
Proof. intros H. by destruct (Ascii.eqb_spec a c). Qed.

Lemma entity_other a :
  a <> amp -> a <> quot -> a <> apos -> a <> lt -> a <> gt ->
  entity a = String a EmptyString /\ special a = false.
Proof.
  intros H1 H2 H3 H4 H5. unfold entity, special.
  by rewrite !eqb_ne.
Qed.

Lemma escapeString_cons a s :
  escapeString (String a s) = entity a +:+ escapeString s.
Proof.
  unfold escapeString.
  destruct (classify a) as [-> | [-> | [-> | [-> | [-> | (H1 & H2 & H3 & H4 & H5)]]]]];
    try reflexivity.
  destruct (entity_other a H1 H2 H3 H4 H5) as (-> & _).
  do 5 (cbn [replaceAll]; rewrite (eqb_ne a) by done). reflexivity.
Qed.

Lemma escapeString_onePass s : escapeString s = onePass s.
Proof.
  induction s as [|a s IH]; [done|].
  rewrite escapeString_cons. cbn [onePass]. by rewrite IH.
Qed.


Ltac classify_both a b :=
  destruct (classify a)
    as [-> | [-> | [-> | [-> | [-> | (?Ha1 & ?Ha2 & ?Ha3 & ?Ha4 & ?Ha5)]]]]];
  destruct (classify b)
    as [-> | [-> | [-> | [-> | [-> | (?Hb1 & ?Hb2 & ?Hb3 & ?Hb4 & ?Hb5)]]]]].

Lemma entity_nonempty a x : entity a +:+ x <> EmptyString.
Proof.
  destruct (classify a)
    as [-> | [-> | [-> | [-> | [-> | (H1 & H2 & H3 & H4 & H5)]]]]];
    try discriminate.
  by destruct (entity_other a H1 H2 H3 H4 H5) as (-> & _).
Qed.

Lemma entity_app_inj a b x y :
  entity a +:+ x = entity b +:+ y -> a = b /\ x = y.
Proof.
  classify_both a b;
    rewrite ?(proj1 (entity_other a Ha1 Ha2 Ha3 Ha4 Ha5)),
            ?(proj1 (entity_other b Hb1 Hb2 Hb3 Hb4 Hb5));
    cbn; intros H; try discriminate H;
    try (injection H as H; by subst);
    injection H as H1 H2; by subst.
Qed.

Lemma onePass_inj s1 : forall s2, onePass s1 = onePass s2 -> s1 = s2.
Proof.
  induction s1 as [|a s1 IH]; intros [|b s2]; cbn [onePass]; intros H.
  - done.
  - symmetry in H. by apply entity_nonempty in H.
  - by apply entity_nonempty in H.
  - apply entity_app_inj in H as (-> & H). f_equal. by apply IH.
Qed.

Lemma occurs_app c x y : occurs c (x +:+ y) = occurs c x || occurs c y.
Proof.
  induction x as [|a x IH]; [done|].
  change (String a x +:+ y) with (String a (x +:+ y)). cbn [occurs].
  rewrite IH. by rewrite orb_assoc.
Qed.

Lemma occurs_entity c a :
  c = quot \/ c = apos \/ c = lt \/ c = gt -> occurs c (entity a) = false.
Proof.
  intros Hc.
  destruct (classify a)
    as [-> | [-> | [-> | [-> | [-> | (H1 & H2 & H3 & H4 & H5)]]]]];
    try (by destruct Hc as [-> | [-> | [-> | ->]]]).
  destruct (entity_other a H1 H2 H3 H4 H5) as (-> & _). cbn.
  rewrite orb_false_r. apply eqb_ne.
  by destruct Hc as [-> | [-> | [-> | ->]]].
Qed.

Lemma occurs_onePass c s :
  c = quot \/ c = apos \/ c = lt \/ c = gt -> occurs c (onePass s) = false.
Proof.
  intros Hc. induction s as [|a s IH]; [done|]. cbn [onePass].
  by rewrite occurs_app, occurs_entity, IH.
Qed.

Lemma length_entity a :
  (if special a then 4 <= String.length (entity a)
   else String.length (entity a) = 1)%nat.
Proof.
  destruct (classify a)
    as [-> | [-> | [-> | [-> | [-> | (H1 & H2 & H3 & H4 & H5)]]]]];
    try (cbn; lia).
  by destruct (entity_other a H1 H2 H3 H4 H5) as (-> & ->).
Qed.

Lemma length_append x y :
  String.length (x +:+ y) = (String.length x + String.length y)%nat.
Proof.
  induction x as [|a x IH]; [done|].
  change (String a x +:+ y) with (String a (x +:+ y)). cbn [String.length].
  by rewrite IH.
Qed.

Lemma length_onePass s :
  (String.length s <= String.length (onePass s))%nat /\
  (plain s = false -> (String.length s < String.length (onePass s))%nat).
Proof.
  induction s as [|a s (IH1 & IH2)]; [done|]. cbn [onePass plain String.length].
  rewrite length_append. pose proof (length_entity a) as Ha.
  destruct (special a); cbn [negb andb].
  - split; intros; lia.
  - split; [lia|]. intros Hp. specialize (IH2 Hp). lia.
Qed.

Lemma onePass_plain s : plain s = true -> onePass s = s.
Proof.
  induction s as [|a s IH]; [done|]. cbn [plain onePass].
  intros (Ha & Hs)%andb_true_iff. rewrite (IH Hs).
  apply negb_true_iff in Ha. unfold special in Ha.
  apply orb_false_iff in Ha as (Ha & H5).
  apply orb_false_iff in Ha as (Ha & H4).
  apply orb_false_iff in Ha as (Ha & H3).
  apply orb_false_iff in Ha as (H1 & H2).
  unfold entity. by rewrite H1, H2, H3, H4, H5.
Qed.

(** X19: the five replacements in a row do the same as escaping each
    character once on its own: no replacement touches what an earlier one
    wrote. *)
Theorem escapeHtml_one_pass arg :
  escapeHtml arg = onePass (default EmptyString arg).
Proof. apply escapeString_onePass. Qed.

(** X20: the escaped text holds no double quote, no apostrophe, no [<] and
    no [>]. *)
Theorem escapeHtml_safe arg :
  occurs quot (escapeHtml arg) = false /\
  occurs apos (escapeHtml arg) = false /\
  occurs lt (escapeHtml arg) = false /\
  occurs gt (escapeHtml arg) = false.
Proof.
  rewrite escapeHtml_one_pass.
  repeat split; apply occurs_onePass; auto.
Qed.

(** X21: escaping loses nothing: two strings with the same escaped text are
    the same string. *)
Theorem escapeHtml_injective s1 s2 :
  escapeHtml (Some s1) = escapeHtml (Some s2) -> s1 = s2.
Proof.
  change (escapeHtml (Some s1)) with (escapeString s1).
  change (escapeHtml (Some s2)) with (escapeString s2).
  rewrite !escapeString_onePass. apply onePass_inj.
Qed.

Lemma escapeHtml_injective_witness :
  "Tom & Jerry"%string = "Tom & Jerry"%string.
Proof.
  apply (escapeHtml_injective "Tom & Jerry" "Tom & Jerry"). reflexivity.
Defined.

(** X22: the escaped text is never shorter than the string, and it is the
    string itself exactly when the string holds none of the five
    characters. *)
Theorem escapeHtml_plain s :
  (String.length s <= String.length (escapeHtml (Some s)))%nat /\
  (escapeHtml (Some s) = s <-> plain s = true).
Proof.
  change (escapeHtml (Some s)) with (escapeString s).
  rewrite escapeString_onePass.
  destruct (length_onePass s) as (Hle & Hlt). split; [exact Hle|]. split.
  - intros He. destruct (plain s) eqn:Hp; [done|].
    specialize (Hlt eq_refl). rewrite He in Hlt. lia.
  - apply onePass_plain.
Qed.

Lemma escapeHtml_plain_witness :
  escapeHtml (Some "Mixer-Grinder"%string) = "Mixer-Grinder"%string.
Proof.
  apply (proj2 (proj2 (escapeHtml_plain "Mixer-Grinder"))). reflexivity.
Defined.

End HtmlFacts.
